(** * CW Fistcheck: ideal Morse timing, audio keyer, alignment

    A shallow embedding of [src/utils/morseUtils.ts] (the timing synthesizer
    [textToIdealTiming], the go-ahead detector [detectCommand] and the
    [useAudioKeyer] hook that follows them in the same file), of
    [src/constants.ts] and of the alignment step of
    [src/components/Timeline.tsx].

    Numbers.  The code is embedded twice.  First on exact rationals [Q]:
    sums, differences, products and quotients are the mathematical ones, and
    equalities between computed times are stated with [==], the equality of
    rationals.  This is the arithmetic of the formulas; facts about
    comparisons, counts, states and the shape of the results are proved
    there, and so are equalities of times that are expressly about exact
    arithmetic.  Then, in the module [Doubles], the timing synthesizer and
    the audio keyer are embedded on binary64 floating-point numbers, the
    numbers JavaScript computes with: each operation is rounded as the
    program rounds it, and what is proved there is about the values the
    program stores.

    Text.  A string is a [string] of 8-bit characters; [toUpperCase] maps the
    ASCII letters a-z and leaves every other character as it is, so the
    model of [cleanText] is that of ASCII text.  The facts proved for every
    text go through the loops over an arbitrary cleaned text.

    State.  The refs of the hook are the fields of one record, passed from
    operation to operation; the audio clock is an argument of the
    operations that read it. *)

From Stdlib Require Import ZArith QArith Qminmax Qabs List String Ascii Bool Arith Lia Lqa.
From Stdlib Require Import Qround.
From Stdlib Require Import Floats Uint63.
Import ListNotations.

(** Decimal literals of doubles stand for the nearest double, as in
    JavaScript. *)
Set Warnings "-inexact-float".
Open Scope Q_scope.

(** ** Comparisons of numbers, as booleans *)

(** [Qltb x y] is JavaScript's [x < y]; [x > y] is written [Qltb y x]. *)
Definition Qltb (x y : Q) : bool := negb (Qle_bool y x).

(** ** src/types.ts *)

Inductive SignalState : Set := on | off.

Record SignalInterval : Set := mkInterval {
  startTime : Q;
  duration : Q;
  state : SignalState
}.

Definition isOn (s : SignalInterval) : bool :=
  match state s with on => true | off => false end.

Definition isOff (s : SignalInterval) : bool :=
  match state s with on => false | off => true end.

(** ** Arrays of intervals

    An array is a list in index order: [push] appends, [lastOf] reads
    [a[a.length - 1]], [pop] removes the last element. *)

Definition push (a : list SignalInterval) (x : SignalInterval) : list SignalInterval :=
  a ++ [x].

Fixpoint lastOf (a : list SignalInterval) : option SignalInterval :=
  match a with
  | [] => None
  | [x] => Some x
  | _ :: tl => lastOf tl
  end.

Definition pop (a : list SignalInterval) : list SignalInterval := removelast a.

(** [a.slice(-n)]: the last [n] elements (all of them when there are fewer). *)
Definition sliceLast (n : nat) (a : list SignalInterval) : list SignalInterval :=
  skipn (List.length a - n) a.

(** ** src/constants.ts *)

Definition entry (char : ascii) (code : string) : ascii * string := (char, code).

Definition MORSE_TABLE : list (ascii * string) :=
  [ entry "A" ".-"; entry "B" "-..."; entry "C" "-.-."; entry "D" "-.."; entry "E" "."; entry "F" "..-.";
    entry "G" "--."; entry "H" "...."; entry "I" ".."; entry "J" ".---"; entry "K" "-.-"; entry "L" ".-..";
    entry "M" "--"; entry "N" "-."; entry "O" "---"; entry "P" ".--."; entry "Q" "--.-"; entry "R" ".-.";
    entry "S" "..."; entry "T" "-"; entry "U" "..-"; entry "V" "...-"; entry "W" ".--"; entry "X" "-..-";
    entry "Y" "-.--"; entry "Z" "--..";
    entry "1" ".----"; entry "2" "..---"; entry "3" "...--"; entry "4" "....-"; entry "5" ".....";
    entry "6" "-...."; entry "7" "--..."; entry "8" "---.."; entry "9" "----."; entry "0" "-----";
    entry "." ".-.-.-"; entry "," "--..--"; entry "?" "..--.."; entry "'" ".----."; entry "!" "-.-.--";
    entry "/" "-..-."; entry "(" "-.--."; entry ")" "-.--.-"; entry "&" ".-..."; entry ":" "---...";
    entry ";" "-.-.-."; entry "=" "-...-"; entry "+" ".-.-."; entry "-" "-....-"; entry "_" "..--.-";
    entry "034" ".-..-."; entry "$" "...-..-"; entry "@" ".--.-."; entry " " "/" ].

Fixpoint lookupChar (c : ascii) (table : list (ascii * string)) : option string :=
  match table with
  | [] => None
  | (k, v) :: rest => if Ascii.eqb k c then Some v else lookupChar c rest
  end.

(** [MORSE_MAP[char]], [None] for [undefined]. *)
Definition MORSE_MAP (char : ascii) : option string := lookupChar char MORSE_TABLE.

Definition calculateDotLength (wpm : Q) : Q := 1200 / wpm.

(** ** src/utils/morseUtils.ts: textToIdealTiming *)

Definition toUpperCase (c : ascii) : ascii :=
  let n := nat_of_ascii c in
  if ((97 <=? n) && (n <=? 122))%nat then ascii_of_nat (n - 32) else c.

Definition inRange (lo hi : nat) (c : ascii) : bool :=
  ((lo <=? nat_of_ascii c) && (nat_of_ascii c <=? hi))%nat.

(** The character class kept by the cleaning regex: A-Z, 0-9, the space and
    the punctuation marks listed (character 034 is the double quote). *)
Definition supported (c : ascii) : bool :=
  inRange 65 90 c || inRange 48 57 c ||
  existsb (Ascii.eqb c)
    [" "; "."; ","; "?"; "'"; "!"; "/"; "("; ")"; "&"; ":"; ";"; "="; "+"; "_";
     "034"; "$"; "@"; "-"]%char.

Fixpoint mapString (f : ascii -> ascii) (s : string) : string :=
  match s with
  | EmptyString => EmptyString
  | String c rest => String (f c) (mapString f rest)
  end.

Definition cleanText (text : string) : string :=
  mapString (fun c => if supported c then c else " "%char)
            (mapString toUpperCase text).

(** The two variables the loops update: the array and the running time. *)
Record Synth : Set := mkSynth {
  intervals : list SignalInterval;
  currentTime : Q
}.

Definition emit (d : Q) (st : SignalState) (s : Synth) : Synth :=
  {| intervals := push (intervals s) (mkInterval (currentTime s) d st);
     currentTime := currentTime s + d |}.

(** [a[a.length - 1].duration += d] *)
Fixpoint addToLastDuration (d : Q) (a : list SignalInterval) : list SignalInterval :=
  match a with
  | [] => []
  | [x] => [mkInterval (startTime x) (duration x + d) (state x)]
  | x :: tl => x :: addToLastDuration d tl
  end.

(** The inner loop over the symbols of one code; [rest] is empty exactly when
    [j = code.length - 1]. *)
Fixpoint symbolLoop (dotMs : Q) (code : string) (s : Synth) : Synth :=
  match code with
  | EmptyString => s
  | String symbol rest =>
      let duration := if Ascii.eqb symbol "." then dotMs else 3 * dotMs in
      let s1 := emit duration on s in
      let s2 := match rest with
                | EmptyString => s1
                | String _ _ => emit dotMs off s1
                end in
      symbolLoop dotMs rest s2
  end.

(** One iteration of the outer loop.  The sums are exact here;
    [Doubles.charStep] has them rounded. *)
Definition charStep (dotMs : Q) (char : ascii) (s : Synth) : Synth :=
  if Ascii.eqb char " " then
    match lastOf (intervals s) with
    | Some l =>
        if isOff l then
          {| intervals := addToLastDuration (4 * dotMs) (intervals s);
             currentTime := currentTime s + 4 * dotMs |}
        else s
    | None => s
    end
  else
    match MORSE_MAP char with
    | None => s
    | Some EmptyString => s
    | Some code => emit (3 * dotMs) off (symbolLoop dotMs code s)
    end.

Fixpoint charLoop (dotMs : Q) (text : string) (s : Synth) : Synth :=
  match text with
  | EmptyString => s
  | String char rest => charLoop dotMs rest (charStep dotMs char s)
  end.

Definition dotSeconds (wpm : Q) : Q := calculateDotLength wpm / 1000.

Definition textToIdealTiming (text : string) (wpm : Q) : list SignalInterval :=
  intervals (charLoop (dotSeconds wpm) (cleanText text) (mkSynth [] 0)).

(** ** src/utils/morseUtils.ts: detectCommand *)

Definition detectCommand (signals : list SignalInterval) (wpm : Q)
    (commandChar : ascii) : bool :=
  if (List.length signals <? 3)%nat then false else
  let dotMs := calculateDotLength wpm / 1000 in
  let dotMax := dotMs * 2.0 in
  let dahMin := dotMs * 2.0 in
  let onSignals := filter isOn signals in
  if (List.length onSignals <? 3)%nat then false else
  let last3 := sliceLast 3 onSignals in
  match nth_error last3 0, nth_error last3 1, nth_error last3 2 with
  | Some s0, Some s1, Some s2 =>
      let isDah1 := Qltb dahMin (duration s0) in
      let isDit := Qltb (duration s1) dotMax in
      let isDah2 := Qltb dahMin (duration s2) in
      match MORSE_MAP commandChar with
      | Some targetCode =>
          String.eqb targetCode "-.-" && isDah1 && isDit && isDah2
      | None => false
      end
  | _, _, _ => false
  end.

(** The call with the default third argument, [commandChar = 'K']. *)
Definition detectCommandK (signals : list SignalInterval) (wpm : Q) : bool :=
  detectCommand signals wpm "K".

(** ** src/utils/morseUtils.ts: useAudioKeyer

    The refs of the hook, as one record.  [audioContextRef] records whether
    [audioContextRef.current] is set; the clock of the audio context is an
    argument ([now]) of the operations that read it. *)

Record Keyer : Set := mkKeyer {
  isListening : bool;
  audioContextRef : bool;
  signalsRef : list SignalInterval;
  isSignalOnRef : bool;
  lastChangeTimeRef : Q;
  startTimeRef : Q;
  currentLevelRef : Q;
  smoothedEnvRef : Q;
  thresholdRef : Q
}.

(** The hook as mounted, before any capture. *)
Definition useAudioKeyer (threshold : Q) : Keyer :=
  {| isListening := false; audioContextRef := false; signalsRef := [];
     isSignalOnRef := false; lastChangeTimeRef := 0; startTimeRef := 0;
     currentLevelRef := 0; smoothedEnvRef := 0; thresholdRef := threshold |}.

Definition cleanup (k : Keyer) : Keyer :=
  {| isListening := false; audioContextRef := false; signalsRef := signalsRef k;
     isSignalOnRef := isSignalOnRef k; lastChangeTimeRef := lastChangeTimeRef k;
     startTimeRef := startTimeRef k; currentLevelRef := currentLevelRef k;
     smoothedEnvRef := 0; thresholdRef := thresholdRef k |}.

Definition pendingState (signalOn : bool) : SignalState :=
  if signalOn then on else off.

(** [stopListening], called when the audio clock reads [now]. *)
Definition stopListening (now : Q) (k : Keyer) : Keyer :=
  cleanup
    (if audioContextRef k then
       let relativeNow := Qmax 0 (now - startTimeRef k) in
       let duration := relativeNow - lastChangeTimeRef k in
       if Qltb 0.01 duration then
         {| isListening := isListening k; audioContextRef := audioContextRef k;
            signalsRef :=
              signalsRef k ++
              [mkInterval (lastChangeTimeRef k) duration (pendingState (isSignalOnRef k))];
            isSignalOnRef := isSignalOnRef k; lastChangeTimeRef := lastChangeTimeRef k;
            startTimeRef := startTimeRef k; currentLevelRef := currentLevelRef k;
            smoothedEnvRef := smoothedEnvRef k; thresholdRef := thresholdRef k |}
       else k
     else k).

(** [updateUI]: the keyer afterwards, and whether the next animation frame
    was requested ([false] when the loop stopped the session). *)
Definition updateUI (now : Q) (k : Keyer) : Keyer * bool :=
  if isListening k && negb (isSignalOnRef k) && audioContextRef k then
    let relativeTime := Qmax 0 (now - startTimeRef k) in
    let silenceDuration := relativeTime - lastChangeTimeRef k in
    if (0 <? List.length (signalsRef k))%nat && Qltb 5.0 silenceDuration then
      (stopListening now k, false)
    else (k, true)
  else (k, true).

(** [startListening] when the microphone and the audio context are obtained;
    [now] is the clock of the new context. *)
Definition startListening (now : Q) (k : Keyer) : Keyer :=
  let k0 := if audioContextRef k then cleanup k else k in
  {| isListening := true; audioContextRef := true; signalsRef := [];
     isSignalOnRef := false; lastChangeTimeRef := 0; startTimeRef := now;
     currentLevelRef := currentLevelRef k0; smoothedEnvRef := 0;
     thresholdRef := thresholdRef k0 |}.

Definition resetSignals (now : Q) (k : Keyer) : Keyer :=
  {| isListening := isListening k; audioContextRef := audioContextRef k;
     signalsRef := []; isSignalOnRef := false;
     lastChangeTimeRef := if audioContextRef k then 0 else lastChangeTimeRef k;
     startTimeRef := if audioContextRef k then now else startTimeRef k;
     currentLevelRef := currentLevelRef k; smoothedEnvRef := 0;
     thresholdRef := thresholdRef k |}.

(** The effect that copies the [threshold] prop into its ref. *)
Definition setThreshold (threshold : Q) (k : Keyer) : Keyer :=
  {| isListening := isListening k; audioContextRef := audioContextRef k;
     signalsRef := signalsRef k; isSignalOnRef := isSignalOnRef k;
     lastChangeTimeRef := lastChangeTimeRef k; startTimeRef := startTimeRef k;
     currentLevelRef := currentLevelRef k; smoothedEnvRef := smoothedEnvRef k;
     thresholdRef := threshold |}.

(** *** The detection loop of [onaudioprocess]

    The interval accumulator is what the two transition branches read and
    write: the local [signalState] and the refs [signalsRef] and
    [lastChangeTimeRef]. *)

Record Accumulator : Set := mkAcc {
  signalState : bool;
  signals : list SignalInterval;
  lastChangeTime : Q
}.

(** The branch "Transition to ON".  The difference is exact here;
    [Doubles.transitionToOn] has it rounded. *)
Definition transitionToOn (relativeTime : Q) (a : Accumulator) : Accumulator :=
  let durationSinceLast := relativeTime - lastChangeTime a in
  if Qltb durationSinceLast 0.015 && (0 <? List.length (signals a))%nat then
    {| signalState := true;
       signals := pop (signals a);
       lastChangeTime :=
         match lastOf (signals a) with
         | Some lastSig =>
             if isOn lastSig then startTime lastSig else lastChangeTime a
         | None => lastChangeTime a
         end |}
  else
    {| signalState := true;
       signals :=
         if (0 <? List.length (signals a))%nat || Qltb 0 (lastChangeTime a) then
           push (signals a) (mkInterval (lastChangeTime a) durationSinceLast off)
         else signals a;
       lastChangeTime := relativeTime |}.

(** The branch "Transition to OFF".  The difference is exact here;
    [Doubles.transitionToOff] has it rounded. *)
Definition transitionToOff (relativeTime : Q) (a : Accumulator) : Accumulator :=
  let durationSinceLast := relativeTime - lastChangeTime a in
  if Qltb durationSinceLast 0.015 then
    match lastOf (signals a) with
    | Some lastSig =>
        if isOff lastSig then
          {| signalState := false; signals := pop (signals a);
             lastChangeTime := startTime lastSig |}
        else
          {| signalState := false; signals := signals a;
             lastChangeTime := lastChangeTime a |}
    | None =>
        {| signalState := false; signals := signals a;
           lastChangeTime := lastChangeTime a |}
    end
  else
    {| signalState := false;
       signals := push (signals a) (mkInterval (lastChangeTime a) durationSinceLast on);
       lastChangeTime := relativeTime |}.

(** "State Detection": the two guarded branches, for the envelope [env] of
    the sample at [relativeTime]. *)
Definition detect (th lowerTh relativeTime env : Q) (a : Accumulator) : Accumulator :=
  if negb (signalState a) && Qltb th env then transitionToOn relativeTime a
  else if signalState a && Qltb env lowerTh then transitionToOff relativeTime a
  else a.

(** The envelope follower. *)
Definition follow (env absVal : Q) : Q :=
  if Qltb env absVal then env * 0.6 + absVal * 0.4 else env * 0.98.

(** Time of sample [i] of a block, relative to the session origin. *)
Definition sampleTime (bufferStartTime sampleRate origin : Q) (i : nat) : Q :=
  let preciseTime := bufferStartTime + (inject_Z (Z.of_nat i) / sampleRate) in
  Qmax 0 (preciseTime - origin).

(** The variables of one pass over a block. *)
Record Detector : Set := mkDetector {
  env : Q;
  maxValInChunk : Q;
  acc : Accumulator
}.

(** The body of the loop, at index [i] with sample [x]. *)
Definition processSample (th lowerTh bufferStartTime sampleRate origin : Q)
    (i : nat) (x : Q) (d : Detector) : Detector :=
  let absVal := Qabs x in
  let maxVal := if Qltb (maxValInChunk d) absVal then absVal else maxValInChunk d in
  let env' := follow (env d) absVal in
  let relativeTime := sampleTime bufferStartTime sampleRate origin i in
  {| env := env'; maxValInChunk := maxVal;
     acc := detect th lowerTh relativeTime env' (acc d) |}.

Fixpoint sampleLoop (th lowerTh bufferStartTime sampleRate origin : Q)
    (i : nat) (inputData : list Q) (d : Detector) : Detector :=
  match inputData with
  | [] => d
  | x :: rest =>
      sampleLoop th lowerTh bufferStartTime sampleRate origin (S i) rest
        (processSample th lowerTh bufferStartTime sampleRate origin i x d)
  end.

(** The audio processing event: the input samples, their rate and the
    playback time of the block. *)
Record AudioProcessingEvent : Set := mkEvent {
  inputData : list Q;
  sampleRate : Q;
  playbackTime : Q
}.

Definition onaudioprocess (e : AudioProcessingEvent) (k : Keyer) : Keyer :=
  let th := thresholdRef k in
  let lowerTh := th * 0.6 in
  let d := sampleLoop th lowerTh (playbackTime e) (sampleRate e) (startTimeRef k) 0
             (inputData e)
             {| env := smoothedEnvRef k; maxValInChunk := 0;
                acc := {| signalState := isSignalOnRef k; signals := signalsRef k;
                          lastChangeTime := lastChangeTimeRef k |} |} in
  {| isListening := isListening k; audioContextRef := audioContextRef k;
     signalsRef := signals (acc d); isSignalOnRef := signalState (acc d);
     lastChangeTimeRef := lastChangeTime (acc d); startTimeRef := startTimeRef k;
     currentLevelRef := maxValInChunk d; smoothedEnvRef := env d;
     thresholdRef := thresholdRef k |}.

(** What can happen to the keyer while a capture session runs. *)
Inductive SessionEvent : Set :=
  | AudioProcess (e : AudioProcessingEvent)
  | ThresholdChange (threshold : Q)
  | ResetSignals (now : Q).

Definition sessionStep (k : Keyer) (ev : SessionEvent) : Keyer :=
  match ev with
  | AudioProcess e => onaudioprocess e k
  | ThresholdChange threshold => setThreshold threshold k
  | ResetSignals now => resetSignals now k
  end.

(** A capture session: [startListening], then the events in order. *)
Definition session (threshold now : Q) (events : list SessionEvent) : Keyer :=
  fold_left sessionStep events (startListening now (useAudioKeyer threshold)).

(** ** src/components/Timeline.tsx: displayed and aligned signals *)

Record ActiveSignal : Set := mkActive {
  activeState : SignalState;
  activeStartTime : Q;
  activeCurrentTime : Q
}.

Definition displaySignals (userSignals : list SignalInterval)
    (activeSignal : option ActiveSignal) (listening : bool) : list SignalInterval :=
  match activeSignal with
  | None => userSignals
  | Some a =>
      if negb listening then userSignals else
      let duration := activeCurrentTime a - activeStartTime a in
      if Qle_bool duration 0 then userSignals
      else userSignals ++ [mkInterval (activeStartTime a) duration (activeState a)]
  end.

(** One element of the [map]: the start moved by [shift], an exact sum. *)
Definition shifted (shift : Q) (s : SignalInterval) : SignalInterval :=
  {| startTime := startTime s + shift; duration := duration s; state := state s |}.

Definition alignedUserSignals (idealSignals displayed : list SignalInterval)
    : list SignalInterval :=
  match find isOn idealSignals, find isOn displayed with
  | Some firstIdeal, Some firstUser =>
      let shift := startTime firstIdeal - startTime firstUser in
      map (shifted shift) displayed
  | _, _ => []
  end.

(** ** src/constants.ts: REVERSE_MORSE_MAP *)

(** [Object.entries(MORSE_MAP)]: the keys that are array indices (here "0"
    to "9") come first, in ascending order, then the other keys in the
    order of the literal. *)
Definition isIndexKey (c : ascii) : bool := inRange 48 57 c.

Definition objectEntries (table : list (ascii * string)) : list (ascii * string) :=
  flat_map (fun k => match lookupChar k table with
                     | Some v => [(k, v)]
                     | None => []
                     end)
           ["0"; "1"; "2"; "3"; "4"; "5"; "6"; "7"; "8"; "9"]%char
  ++ filter (fun e => negb (isIndexKey (fst e))) table.

(** [acc[code] = char]: the latest assignment to a key is the one read. *)
Definition assignCode (acc : list (string * ascii)) (e : ascii * string)
    : list (string * ascii) :=
  (snd e, fst e) :: acc.

Fixpoint lookupCode (code : string) (acc : list (string * ascii)) : option ascii :=
  match acc with
  | [] => None
  | (k, v) :: rest => if String.eqb k code then Some v else lookupCode code rest
  end.

Definition REVERSE_MORSE_TABLE : list (string * ascii) :=
  fold_left assignCode (objectEntries MORSE_TABLE) [].

(** [REVERSE_MORSE_MAP[code]], [None] for [undefined]. *)
Definition REVERSE_MORSE_MAP (code : string) : option ascii :=
  lookupCode code REVERSE_MORSE_TABLE.

(** ** src/components/Timeline.tsx: rows *)

Definition SECONDS_PER_ROW : Q := 14.

Definition getLastTime (signals : list SignalInterval) : Q :=
  match lastOf signals with
  | None => 0
  | Some last => startTime last + duration last
  end.

(** [Math.max] of the three times. *)
Definition maxTime (idealSignals aligned : list SignalInterval) : Q :=
  Qmax (Qmax (getLastTime idealSignals) (getLastTime aligned)) SECONDS_PER_ROW.

(** [Math.ceil(maxTime / SECONDS_PER_ROW)] *)
Definition rowCount (idealSignals aligned : list SignalInterval) : Z :=
  Qceiling (maxTime idealSignals aligned / SECONDS_PER_ROW).

Definition rowStartTime (r : Z) : Q := inject_Z r * SECONDS_PER_ROW.

Definition rowEndTime (r : Z) : Q := (inject_Z r + 1) * SECONDS_PER_ROW.

(** The filter of [drawSignals]. *)
Definition visibleSignals (rowStart rowEnd : Q) (signals : list SignalInterval)
    : list SignalInterval :=
  filter (fun s =>
            let sEnd := startTime s + duration s in
            isOn s && Qltb (startTime s) rowEnd && Qltb rowStart sEnd)
         signals.

(** The scale of a row, [d3.scaleLinear().domain([rowStartTime, rowEndTime])
    .range([0, innerWidth])]: the linear map that takes the start of the row
    to pixel 0 and its end to pixel [innerWidth]. *)
Definition xScale (rowStartTime rowEndTime innerWidth t : Q) : Q :=
  (t - rowStartTime) / (rowEndTime - rowStartTime) * innerWidth.

(** A rectangle of a track: its attributes [x] and [width], in pixels. *)
Record Rect : Set := mkRect {
  rectX : Q;
  rectWidth : Q
}.

(** The rectangles that [drawSignals] appends for a row, in order. *)
Definition drawSignals (innerWidth rowStart rowEnd : Q) (signals : list SignalInterval)
    : list Rect :=
  map (fun s =>
         let start := Qmax rowStart (startTime s) in
         let end_ := Qmin rowEnd (startTime s + duration s) in
         {| rectX := xScale rowStart rowEnd innerWidth start;
            rectWidth := Qmax 2 (xScale rowStart rowEnd innerWidth end_ -
                                 xScale rowStart rowEnd innerWidth start) |})
      (visibleSignals rowStart rowEnd signals).

(** ** The application component: speed and lines *)

(** [Number(x.toFixed(1))]: the nearest multiple of 0.1, the one further
    from zero when two are as near. *)
Definition toFixed1 (x : Q) : Q :=
  if Qltb x 0 then - (inject_Z (Qfloor (10 * (- x) + (1 # 2))) / 10)
  else inject_Z (Qfloor (10 * x + (1 # 2))) / 10.

(** The argument of [setWpm] in [updateWpm]. *)
Definition updateWpm (newWpm : Q) : Q := Qmax 5 (Qmin 40 (toFixed1 newWpm)).

Definition lineFeed : ascii := "010".

(** [s.split('\n')] *)
Fixpoint splitLines (s : string) : list string :=
  match s with
  | EmptyString => [EmptyString]
  | String c rest =>
      if Ascii.eqb c lineFeed then EmptyString :: splitLines rest
      else match splitLines rest with
           | [] => [String c EmptyString]
           | l :: ls => String c l :: ls
           end
  end.

(** The characters that [trim] removes, among the 8-bit ones. *)
Definition isWhitespace (c : ascii) : bool :=
  inRange 9 13 c || Ascii.eqb c " " || Ascii.eqb c "160".

(** [l.trim().length > 0] fails. *)
Definition isBlank (l : string) : bool :=
  forallb isWhitespace (list_ascii_of_string l).

Definition parseLines (inputText : string) : list string :=
  filter (fun l => negb (isBlank l)) (splitLines inputText).

(** The lines of the lesson and the index of the current one. *)
Record Lesson : Set := mkLesson {
  lines : list string;
  currentLineIndex : nat
}.

(** The effect that follows a change of the input text. *)
Definition setInputText (inputText : string) (l : Lesson) : Lesson :=
  let splitLines := parseLines inputText in
  {| lines := splitLines;
     currentLineIndex :=
       if (List.length splitLines <=? currentLineIndex l)%nat then 0%nat
       else currentLineIndex l |}.

Definition handlePrevLine (l : Lesson) : Lesson :=
  if (0 <? currentLineIndex l)%nat
  then {| lines := lines l; currentLineIndex := (currentLineIndex l - 1)%nat |}
  else l.

Definition handleNextLine (l : Lesson) : Lesson :=
  if (Z.of_nat (currentLineIndex l) <? Z.of_nat (List.length (lines l)) - 1)%Z
  then {| lines := lines l; currentLineIndex := (currentLineIndex l + 1)%nat |}
  else l.

(** [lines[currentLineIndex] || ""] *)
Definition currentLineText (l : Lesson) : string :=
  nth (currentLineIndex l) (lines l) EmptyString.

Inductive LessonEvent : Set :=
  | InputText (text : string)
  | PrevLine
  | NextLine.

Definition lessonStep (l : Lesson) (ev : LessonEvent) : Lesson :=
  match ev with
  | InputText text => setInputText text l
  | PrevLine => handlePrevLine l
  | NextLine => handleNextLine l
  end.

(** The component as mounted with some input text, then the events. *)
Definition lesson (inputText : string) (events : list LessonEvent) : Lesson :=
  fold_left lessonStep events (setInputText inputText (mkLesson [] 0)).

(** * Specification vocabulary *)

(** [follows a b]: [b] may come right after [a] in a sequence: the states
    differ and [b] starts where [a] ends. *)
Definition follows (a b : SignalInterval) : Prop :=
  state a <> state b /\ startTime b == startTime a + duration a.

(** The sequence invariant of [SignalInterval] lists, by positions:
    [state[i+1] <> state[i]] and [start[i+1] == start[i] + duration[i]]. *)
Definition sequenceInvariant (l : list SignalInterval) : Prop :=
  forall i a b,
    nth_error l i = Some a -> nth_error l (S i) = Some b -> follows a b.

(** Sum of the durations of a sequence. *)
Definition totalDuration (l : list SignalInterval) : Q :=
  fold_right (fun s t => duration s + t) 0 l.

(** The unit of the spec: [1.2 / wpm] seconds. *)
Definition unit (wpm : Q) : Q := 1.2 / wpm.

(** What the accumulator keeps between two samples: the committed list is a
    valid sequence, and the open segment continues it (its state differs
    from the last committed one and it starts where that one ends). *)
Definition accumulatorInvariant (a : Accumulator) : Prop :=
  sequenceInvariant (signals a) /\
  forall z, lastOf (signals a) = Some z ->
    state z <> pendingState (signalState a) /\
    startTime z + duration z == lastChangeTime a.

Definition keyerAccumulator (k : Keyer) : Accumulator :=
  {| signalState := isSignalOnRef k; signals := signalsRef k;
     lastChangeTime := lastChangeTimeRef k |}.

(** Intervals with their times as reduced fractions, to read computed
    sequences. *)
Definition reduced (l : list SignalInterval) : list SignalInterval :=
  map (fun s => mkInterval (Qred (startTime s)) (Qred (duration s)) (state s)) l.

(** Block number [n] of a stream cut into blocks of 512 samples at 48 kHz,
    as [startListening] sets the audio graph up. *)
Definition block (n : nat) (samples : list Q) : AudioProcessingEvent :=
  mkEvent samples 48000 (inject_Z (Z.of_nat n) * 512 / 48000).

(** *** Invariants of the synthesizer loops *)

(** What holds of the array and of [currentTime] all along the loops. *)
Definition wellTimed (s : Synth) : Prop :=
  sequenceInvariant (intervals s) /\
  totalDuration (intervals s) == currentTime s /\
  (forall a, nth_error (intervals s) 0 = Some a -> state a = on /\ startTime a = 0) /\
  match lastOf (intervals s) with
  | None => currentTime s = 0
  | Some z => startTime z + duration z == currentTime s
  end.

(** Before a mark: nothing yet, or a gap at the end. *)
Definition afterGap (s : Synth) : Prop :=
  wellTimed s /\ forall z, lastOf (intervals s) = Some z -> state z = off.

(** After the last mark of a character. *)
Definition afterMark (s : Synth) : Prop :=
  wellTimed s /\ exists z, lastOf (intervals s) = Some z /\ state z = on.

(** Between two characters: the gap at the end is the inter-character gap,
    extended by some word spaces. *)
Definition betweenChars (dotMs : Q) (s : Synth) : Prop :=
  wellTimed s /\
  forall z, lastOf (intervals s) = Some z ->
    state z = off /\
    exists k : nat, duration z == 3 * dotMs + 4 * dotMs * inject_Z (Z.of_nat k).

(** ** Further vocabulary: the keyer *)

(** The debounce guarantee on a committed list: every interval lasts 15 ms
    or more, except possibly an OFF interval in first position. *)
Definition debounced (l : list SignalInterval) : Prop :=
  forall i s, nth_error l i = Some s ->
    (0 < i)%nat \/ state s = on -> 0.015 <= duration s.

(** No interval starts before the session origin, nor does the open
    segment. *)
Definition afterOrigin (a : Accumulator) : Prop :=
  0 <= lastChangeTime a /\ forall s, In s (signals a) -> 0 <= startTime s.

(** Two keyers that differ at most in what the audio callback never reads:
    the listening flag and the level of the last block. *)
Definition sameCapture (k1 k2 : Keyer) : Prop :=
  audioContextRef k1 = audioContextRef k2 /\
  signalsRef k1 = signalsRef k2 /\
  isSignalOnRef k1 = isSignalOnRef k2 /\
  lastChangeTimeRef k1 = lastChangeTimeRef k2 /\
  startTimeRef k1 = startTimeRef k2 /\
  smoothedEnvRef k1 = smoothedEnvRef k2 /\
  thresholdRef k1 = thresholdRef k2.

(** ** Further vocabulary: the synthesizer *)

(** A Morse code proper: not empty, made of dots and dashes. *)
Definition dotOrDash (c : ascii) : bool := Ascii.eqb c "." || Ascii.eqb c "-".

Definition morseCode (code : string) : bool :=
  negb (String.eqb code "") && forallb dotOrDash (list_ascii_of_string code).

(** What [cleanText] does to one character. *)
Definition cleanChar (c : ascii) : ascii :=
  if supported (toUpperCase c) then toUpperCase c else " "%char.

(** The check behind the coverage of the cleaned characters. *)
Definition supportedHasCode (c : ascii) : bool :=
  negb (supported c) || Ascii.eqb c " " ||
  match MORSE_MAP c with
  | Some code => morseCode code
  | None => false
  end.

(** The number of dots and dashes of a cleaned text. *)
Fixpoint symbolsOf (cleaned : string) : nat :=
  match cleaned with
  | EmptyString => 0
  | String c rest =>
      ((if Ascii.eqb c " " then 0
        else match MORSE_MAP c with
             | Some code => String.length code
             | None => 0
             end) + symbolsOf rest)%nat
  end.

(** [b] is [a] with its times multiplied by [c]. *)
Definition scaledBy (c : Q) (a b : SignalInterval) : Prop :=
  state b = state a /\
  startTime b == c * startTime a /\
  duration b == c * duration a.

(** Every interval lasts a unit [u] or more and starts at 0 or later; a mark
    lasts one unit or three. *)
Definition unitTimed (u : Q) (s : SignalInterval) : Prop :=
  u <= duration s /\ 0 <= startTime s /\
  (state s = on -> duration s == u \/ duration s == 3 * u).

(** [n] intervals, [m] of them marks. *)
Definition counts (n m : nat) (s : Synth) : Prop :=
  List.length (intervals s) = n /\ List.length (filter isOn (intervals s)) = m.

(** All the intervals are timed in units of [u], and the clock is not
    negative. *)
Definition timed (u : Q) (s : Synth) : Prop :=
  Forall (unitTimed u) (intervals s) /\ 0 <= currentTime s.

(** The loop variables at one speed are those at another, scaled by [c]. *)
Definition scaledSynth (c : Q) (s1 s2 : Synth) : Prop :=
  Forall2 (scaledBy c) (intervals s1) (intervals s2) /\
  currentTime s2 == c * currentTime s1.

(** The dots and dashes of a cleaned text, in order. *)
Fixpoint symbolsList (cleaned : string) : list ascii :=
  match cleaned with
  | EmptyString => []
  | String c rest =>
      (if Ascii.eqb c " " then []
       else match MORSE_MAP c with
            | Some code => list_ascii_of_string code
            | None => []
            end) ++ symbolsList rest
  end.

(** The duration of the mark of a symbol: one unit for a dot, three for
    anything else. *)
Definition symbolDuration (dotMs : Q) (symbol : ascii) : Q :=
  if Ascii.eqb symbol "." then dotMs else 3 * dotMs.

(** The durations of the ON intervals of a sequence, in order. *)
Definition markDurations (l : list SignalInterval) : list Q :=
  map duration (filter isOn l).

(** ** Further vocabulary: tables *)

(** [MORSE_MAP[c]] is [code]. *)
Definition encodes (c : ascii) (code : string) : bool :=
  match MORSE_MAP c with
  | Some code' => String.eqb code' code
  | None => false
  end.

(** Decoding the code of [c], if it has one, gives [c] back. *)
Definition decodesBack (c : ascii) : bool :=
  match MORSE_MAP c with
  | Some code =>
      match REVERSE_MORSE_MAP code with
      | Some c' => Ascii.eqb c' c
      | None => false
      end
  | None => true
  end.

(** [c] is K, or its code, if any, is not that of K. *)
Definition notDashDotDash (c : ascii) : bool :=
  Ascii.eqb c "K" || negb (encodes c "-.-").

(** * The same code on IEEE doubles

    JavaScript numbers are binary64 floating-point numbers, and every sum,
    difference, product and quotient of the code is rounded to the nearest
    one.  The module [Doubles] embeds the timing synthesizer and the audio
    keyer once more, operation for operation, on the primitive binary64
    numbers of the kernel ([float]): what it computes is what the program
    stores.  Equalities of doubles are Leibniz equalities of the stored
    values. *)

Module Doubles.

Local Open Scope float_scope.

(** ** src/types.ts *)

Record SignalInterval : Set := mkInterval {
  startTime : float;
  duration : float;
  state : SignalState
}.

Definition isOn (s : SignalInterval) : bool :=
  match state s with on => true | off => false end.

Definition isOff (s : SignalInterval) : bool :=
  match state s with on => false | off => true end.

Definition push (a : list SignalInterval) (x : SignalInterval) : list SignalInterval :=
  a ++ [x].

Fixpoint lastOf (a : list SignalInterval) : option SignalInterval :=
  match a with
  | [] => None
  | [x] => Some x
  | _ :: tl => lastOf tl
  end.

Definition pop (a : list SignalInterval) : list SignalInterval := removelast a.

(** [Math.max(0, x)]: NaN for NaN, [+0] for [-0]. *)
Definition max0 (x : float) : float :=
  if 0 <? x then x else if x =? x then 0 else x.

(** The loop index [i] as a number (exact: an index is far below 2^53). *)
Definition ofIndex (i : nat) : float := PrimFloat.of_uint63 (Uint63.of_Z (Z.of_nat i)).

(** ** src/constants.ts *)

Definition calculateDotLength (wpm : float) : float := 1200 / wpm.

(** ** src/utils/morseUtils.ts: textToIdealTiming *)

Record Synth : Set := mkSynth {
  intervals : list SignalInterval;
  currentTime : float
}.

Definition emit (d : float) (st : SignalState) (s : Synth) : Synth :=
  {| intervals := push (intervals s) (mkInterval (currentTime s) d st);
     currentTime := currentTime s + d |}.

(** [a[a.length - 1].duration += d] *)
Fixpoint addToLastDuration (d : float) (a : list SignalInterval) : list SignalInterval :=
  match a with
  | [] => []
  | [x] => [mkInterval (startTime x) (duration x + d) (state x)]
  | x :: tl => x :: addToLastDuration d tl
  end.

Fixpoint symbolLoop (dotMs : float) (code : string) (s : Synth) : Synth :=
  match code with
  | EmptyString => s
  | String symbol rest =>
      let duration := if Ascii.eqb symbol "." then dotMs else 3 * dotMs in
      let s1 := emit duration on s in
      let s2 := match rest with
                | EmptyString => s1
                | String _ _ => emit dotMs off s1
                end in
      symbolLoop dotMs rest s2
  end.

(** One iteration of the outer loop.  In the word-space branch the gap and
    the clock are each extended by [4 * dotMs]: two sums, each rounded. *)
Definition charStep (dotMs : float) (char : ascii) (s : Synth) : Synth :=
  if Ascii.eqb char " " then
    match lastOf (intervals s) with
    | Some l =>
        if isOff l then
          {| intervals := addToLastDuration (4 * dotMs) (intervals s);
             currentTime := currentTime s + 4 * dotMs |}
        else s
    | None => s
    end
  else
    match MORSE_MAP char with
    | None => s
    | Some EmptyString => s
    | Some code => emit (3 * dotMs) off (symbolLoop dotMs code s)
    end.

Fixpoint charLoop (dotMs : float) (text : string) (s : Synth) : Synth :=
  match text with
  | EmptyString => s
  | String char rest => charLoop dotMs rest (charStep dotMs char s)
  end.

Definition dotSeconds (wpm : float) : float := calculateDotLength wpm / 1000.

(** The loop variables when the outer loop ends. *)
Definition synthesize (text : string) (wpm : float) : Synth :=
  charLoop (dotSeconds wpm) (cleanText text) (mkSynth [] 0).

Definition textToIdealTiming (text : string) (wpm : float) : list SignalInterval :=
  intervals (synthesize text wpm).

(** ** src/utils/morseUtils.ts: useAudioKeyer *)

Record Keyer : Set := mkKeyer {
  isListening : bool;
  audioContextRef : bool;
  signalsRef : list SignalInterval;
  isSignalOnRef : bool;
  lastChangeTimeRef : float;
  startTimeRef : float;
  currentLevelRef : float;
  smoothedEnvRef : float;
  thresholdRef : float
}.

Definition useAudioKeyer (threshold : float) : Keyer :=
  {| isListening := false; audioContextRef := false; signalsRef := [];
     isSignalOnRef := false; lastChangeTimeRef := 0; startTimeRef := 0;
     currentLevelRef := 0; smoothedEnvRef := 0; thresholdRef := threshold |}.

Definition cleanup (k : Keyer) : Keyer :=
  {| isListening := false; audioContextRef := false; signalsRef := signalsRef k;
     isSignalOnRef := isSignalOnRef k; lastChangeTimeRef := lastChangeTimeRef k;
     startTimeRef := startTimeRef k; currentLevelRef := currentLevelRef k;
     smoothedEnvRef := 0; thresholdRef := thresholdRef k |}.

Definition stopListening (now : float) (k : Keyer) : Keyer :=
  cleanup
    (if audioContextRef k then
       let relativeNow := max0 (now - startTimeRef k) in
       let duration := relativeNow - lastChangeTimeRef k in
       if 0.01 <? duration then
         {| isListening := isListening k; audioContextRef := audioContextRef k;
            signalsRef :=
              signalsRef k ++
              [mkInterval (lastChangeTimeRef k) duration
                          (if isSignalOnRef k then on else off)];
            isSignalOnRef := isSignalOnRef k; lastChangeTimeRef := lastChangeTimeRef k;
            startTimeRef := startTimeRef k; currentLevelRef := currentLevelRef k;
            smoothedEnvRef := smoothedEnvRef k; thresholdRef := thresholdRef k |}
       else k
     else k).

Definition startListening (now : float) (k : Keyer) : Keyer :=
  let k0 := if audioContextRef k then cleanup k else k in
  {| isListening := true; audioContextRef := true; signalsRef := [];
     isSignalOnRef := false; lastChangeTimeRef := 0; startTimeRef := now;
     currentLevelRef := currentLevelRef k0; smoothedEnvRef := 0;
     thresholdRef := thresholdRef k0 |}.

Definition resetSignals (now : float) (k : Keyer) : Keyer :=
  {| isListening := isListening k; audioContextRef := audioContextRef k;
     signalsRef := []; isSignalOnRef := false;
     lastChangeTimeRef := if audioContextRef k then 0 else lastChangeTimeRef k;
     startTimeRef := if audioContextRef k then now else startTimeRef k;
     currentLevelRef := currentLevelRef k; smoothedEnvRef := 0;
     thresholdRef := thresholdRef k |}.

Definition setThreshold (threshold : float) (k : Keyer) : Keyer :=
  {| isListening := isListening k; audioContextRef := audioContextRef k;
     signalsRef := signalsRef k; isSignalOnRef := isSignalOnRef k;
     lastChangeTimeRef := lastChangeTimeRef k; startTimeRef := startTimeRef k;
     currentLevelRef := currentLevelRef k; smoothedEnvRef := smoothedEnvRef k;
     thresholdRef := threshold |}.

Record Accumulator : Set := mkAcc {
  signalState : bool;
  signals : list SignalInterval;
  lastChangeTime : float
}.

(** The branch "Transition to ON". *)
Definition transitionToOn (relativeTime : float) (a : Accumulator) : Accumulator :=
  let durationSinceLast := relativeTime - lastChangeTime a in
  if (durationSinceLast <? 0.015) && (0 <? List.length (signals a))%nat then
    {| signalState := true;
       signals := pop (signals a);
       lastChangeTime :=
         match lastOf (signals a) with
         | Some lastSig =>
             if isOn lastSig then startTime lastSig else lastChangeTime a
         | None => lastChangeTime a
         end |}
  else
    {| signalState := true;
       signals :=
         if (0 <? List.length (signals a))%nat || (0 <? lastChangeTime a) then
           push (signals a) (mkInterval (lastChangeTime a) durationSinceLast off)
         else signals a;
       lastChangeTime := relativeTime |}.

(** The branch "Transition to OFF". *)
Definition transitionToOff (relativeTime : float) (a : Accumulator) : Accumulator :=
  let durationSinceLast := relativeTime - lastChangeTime a in
  if durationSinceLast <? 0.015 then
    match lastOf (signals a) with
    | Some lastSig =>
        if isOff lastSig then
          {| signalState := false; signals := pop (signals a);
             lastChangeTime := startTime lastSig |}
        else
          {| signalState := false; signals := signals a;
             lastChangeTime := lastChangeTime a |}
    | None =>
        {| signalState := false; signals := signals a;
           lastChangeTime := lastChangeTime a |}
    end
  else
    {| signalState := false;
       signals := push (signals a) (mkInterval (lastChangeTime a) durationSinceLast on);
       lastChangeTime := relativeTime |}.

Definition detect (th lowerTh relativeTime env : float) (a : Accumulator) : Accumulator :=
  if negb (signalState a) && (th <? env) then transitionToOn relativeTime a
  else if signalState a && (env <? lowerTh) then transitionToOff relativeTime a
  else a.

Definition follow (env absVal : float) : float :=
  if env <? absVal then env * 0.6 + absVal * 0.4 else env * 0.98.

Definition sampleTime (bufferStartTime sampleRate origin : float) (i : nat) : float :=
  let preciseTime := bufferStartTime + (ofIndex i / sampleRate) in
  max0 (preciseTime - origin).

Record Detector : Set := mkDetector {
  env : float;
  maxValInChunk : float;
  acc : Accumulator
}.

Definition processSample (th lowerTh bufferStartTime sampleRate origin : float)
    (i : nat) (x : float) (d : Detector) : Detector :=
  let absVal := abs x in
  let maxVal := if maxValInChunk d <? absVal then absVal else maxValInChunk d in
  let env' := follow (env d) absVal in
  let relativeTime := sampleTime bufferStartTime sampleRate origin i in
  {| env := env'; maxValInChunk := maxVal;
     acc := detect th lowerTh relativeTime env' (acc d) |}.

Fixpoint sampleLoop (th lowerTh bufferStartTime sampleRate origin : float)
    (i : nat) (inputData : list float) (d : Detector) : Detector :=
  match inputData with
  | [] => d
  | x :: rest =>
      sampleLoop th lowerTh bufferStartTime sampleRate origin (S i) rest
        (processSample th lowerTh bufferStartTime sampleRate origin i x d)
  end.

Record AudioProcessingEvent : Set := mkEvent {
  inputData : list float;
  sampleRate : float;
  playbackTime : float
}.

Definition onaudioprocess (e : AudioProcessingEvent) (k : Keyer) : Keyer :=
  let th := thresholdRef k in
  let lowerTh := th * 0.6 in
  let d := sampleLoop th lowerTh (playbackTime e) (sampleRate e) (startTimeRef k) 0
             (inputData e)
             {| env := smoothedEnvRef k; maxValInChunk := 0;
                acc := {| signalState := isSignalOnRef k; signals := signalsRef k;
                          lastChangeTime := lastChangeTimeRef k |} |} in
  {| isListening := isListening k; audioContextRef := audioContextRef k;
     signalsRef := signals (acc d); isSignalOnRef := signalState (acc d);
     lastChangeTimeRef := lastChangeTime (acc d); startTimeRef := startTimeRef k;
     currentLevelRef := maxValInChunk d; smoothedEnvRef := env d;
     thresholdRef := thresholdRef k |}.

Inductive SessionEvent : Set :=
  | AudioProcess (e : AudioProcessingEvent)
  | ThresholdChange (threshold : float)
  | ResetSignals (now : float).

Definition sessionStep (k : Keyer) (ev : SessionEvent) : Keyer :=
  match ev with
  | AudioProcess e => onaudioprocess e k
  | ThresholdChange threshold => setThreshold threshold k
  | ResetSignals now => resetSignals now k
  end.

Definition session (threshold now : float) (events : list SessionEvent) : Keyer :=
  fold_left sessionStep events (startListening now (useAudioKeyer threshold)).

(** ** Vocabulary for sequences of doubles *)

(** Each element of [l] is related to the next one by [R]. *)
Definition chain (R : SignalInterval -> SignalInterval -> Prop)
    (l : list SignalInterval) : Prop :=
  forall i a b, nth_error l i = Some a -> nth_error l (S i) = Some b -> R a b.

(** In the committed list of the keyer, [b] right after [a]: the states
    differ, and the duration stored in [a] is the difference between the two
    start times, one rounded subtraction. *)
Definition spans (a b : SignalInterval) : Prop :=
  state a <> state b /\ duration a = startTime b - startTime a.

(** What the accumulator keeps between two samples. *)
Definition accumulatorInvariant (a : Accumulator) : Prop :=
  chain spans (signals a) /\
  forall z, lastOf (signals a) = Some z ->
    state z <> (if signalState a then on else off) /\
    duration z = lastChangeTime a - startTime z.

Definition keyerAccumulator (k : Keyer) : Accumulator :=
  {| signalState := isSignalOnRef k; signals := signalsRef k;
     lastChangeTime := lastChangeTimeRef k |}.

(** Block number [n] of a stream cut into blocks of 512 samples at 48 kHz,
    as [startListening] sets the audio graph up: it plays at [512 n / 48000]
    seconds. *)
Definition block (n : nat) (samples : list float) : AudioProcessingEvent :=
  mkEvent samples 48000 (ofIndex n * 512 / 48000).

(** [x], then [e] added [k] times, each sum rounded:
    [((x + e) + e) + ...]. *)
Definition extend (e : float) (k : nat) (x : float) : float :=
  Nat.iter k (fun y => y + e) x.

(** The time [t] at which the synthesizer has [z] end.  It is the rounded
    sum [startTime z + duration z], unless [z] is a gap that word spaces
    extended: then the gap lasts [3 * dotMs] extended [k] times by
    [4 * dotMs], and [t] is [startTime z + 3 * dotMs] extended in the same
    way, two sums that are rounded separately. *)
Definition endsAt (dotMs : float) (z : SignalInterval) (t : float) : Prop :=
  t = startTime z + duration z \/
  (state z = off /\
   exists k : nat,
     duration z = extend (4 * dotMs) k (3 * dotMs) /\
     t = extend (4 * dotMs) k (startTime z + 3 * dotMs)).

(** In the synthesized list, [b] right after [a]. *)
Definition linked (dotMs : float) (a b : SignalInterval) : Prop :=
  state a <> state b /\ endsAt dotMs a (startTime b).

(** What holds of the array and of [currentTime] all along the loops. *)
Definition wellTimed (dotMs : float) (s : Synth) : Prop :=
  chain (linked dotMs) (intervals s) /\
  (forall a, nth_error (intervals s) 0 = Some a -> state a = on /\ startTime a = 0) /\
  match lastOf (intervals s) with
  | None => currentTime s = 0
  | Some z => endsAt dotMs z (currentTime s)
  end.

Definition afterGap (dotMs : float) (s : Synth) : Prop :=
  wellTimed dotMs s /\ forall z, lastOf (intervals s) = Some z -> state z = off.

Definition afterMark (dotMs : float) (s : Synth) : Prop :=
  wellTimed dotMs s /\ exists z, lastOf (intervals s) = Some z /\ state z = on.

(** Between two characters: the gap at the end is the inter-character gap,
    extended by some word spaces, and the clock with it. *)
Definition betweenChars (dotMs : float) (s : Synth) : Prop :=
  wellTimed dotMs s /\
  forall z, lastOf (intervals s) = Some z ->
    state z = off /\
    exists k : nat,
      duration z = extend (4 * dotMs) k (3 * dotMs) /\
      currentTime s = extend (4 * dotMs) k (startTime z + 3 * dotMs).

End Doubles.

(** * Facts about numbers and arrays *)

Lemma Qltb_lt (x y : Q) : Qltb x y = true <-> x < y.
Proof.
  unfold Qltb. rewrite negb_true_iff. split; intro H.
  - apply Qnot_le_lt. intro L. apply Qle_bool_iff in L. congruence.
  - destruct (Qle_bool y x) eqn:E; trivial.
    apply Qle_bool_iff in E. exfalso. exact (Qle_not_lt _ _ E H).
Qed.

Lemma Qltb_ge (x y : Q) : Qltb x y = false <-> y <= x.
Proof.
  unfold Qltb. rewrite negb_false_iff. apply Qle_bool_iff.
Qed.

Lemma Qltb_cases (x y : Q) :
  (Qltb x y = true /\ x < y) \/ (Qltb x y = false /\ y <= x).
Proof.
  destruct (Qltb x y) eqn:E.
  - left. split; trivial. now apply Qltb_lt.
  - right. split; trivial. now apply Qltb_ge.
Qed.

Lemma snoc_cases (l : list SignalInterval) :
  l = [] \/ exists l' x, l = l' ++ [x].
Proof.
  destruct l as [|a l]; [now left|right].
  destruct (exists_last (l := a :: l)) as [l' [x E]]; [discriminate|].
  now exists l', x.
Qed.

Lemma lastOf_snoc (l : list SignalInterval) (x : SignalInterval) :
  lastOf (l ++ [x]) = Some x.
Proof.
  induction l as [|a l IH]; [reflexivity|].
  cbn [app lastOf]. destruct (l ++ [x]) eqn:E.
  - destruct l; discriminate.
  - exact IH.
Qed.


Lemma lastOf_inv (l : list SignalInterval) (x : SignalInterval) :
  lastOf l = Some x -> exists l', l = l' ++ [x].
Proof.
  destruct (snoc_cases l) as [E | [l' [y E]]]; subst; [discriminate|].
  rewrite lastOf_snoc. intros [= ->]. now exists l'.
Qed.

Lemma pop_snoc (l : list SignalInterval) (x : SignalInterval) :
  pop (l ++ [x]) = l.
Proof. apply removelast_last. Qed.

Lemma length_snoc_pos (l : list SignalInterval) (x : SignalInterval) :
  (0 <? List.length (l ++ [x]))%nat = true.
Proof. apply Nat.ltb_lt. rewrite length_app. cbn [List.length]. lia. Qed.

Lemma addToLastDuration_snoc (d : Q) (l : list SignalInterval) (x : SignalInterval) :
  addToLastDuration d (l ++ [x]) =
  l ++ [mkInterval (startTime x) (duration x + d) (state x)].
Proof.
  induction l as [|a l IH]; [reflexivity|].
  cbn [app addToLastDuration]. destruct (l ++ [x]) eqn:E.
  - destruct l; discriminate.
  - now rewrite IH.
Qed.

Lemma nth_error_snoc_last (l : list SignalInterval) (x : SignalInterval) :
  nth_error (l ++ [x]) (List.length l) = Some x.
Proof. rewrite nth_error_app2, Nat.sub_diag; [reflexivity|lia]. Qed.

Lemma sequenceInvariant_nil : sequenceInvariant [].
Proof. intros [|i] a b H; discriminate. Qed.

Lemma sequenceInvariant_snoc (l : list SignalInterval) (x : SignalInterval) :
  sequenceInvariant (l ++ [x]) <->
  sequenceInvariant l /\ (forall z, lastOf l = Some z -> follows z x).
Proof.
  split.
  - intro H. split.
    + intros i a b Ha Hb. apply (H i).
      * rewrite nth_error_app1; trivial. apply nth_error_Some. congruence.
      * rewrite nth_error_app1; trivial. apply nth_error_Some. congruence.
    + intros z Hz. destruct (lastOf_inv _ _ Hz) as [l' ->].
      apply (H (List.length l')).
      * rewrite <- app_assoc. rewrite nth_error_app2, Nat.sub_diag; [reflexivity|lia].
      * replace (S (List.length l')) with (List.length (l' ++ [z]))
          by (rewrite length_app; cbn; lia).
        apply nth_error_snoc_last.
  - intros [H Hl] i a b Ha Hb.
    assert (Hi : (S i < List.length (l ++ [x]))%nat)
      by (apply nth_error_Some; congruence).
    rewrite length_app in Hi. cbn in Hi.
    destruct (Nat.eq_dec (S i) (List.length l)) as [E | N].
    + rewrite E, nth_error_snoc_last in Hb. injection Hb as <-.
      apply Hl. rewrite nth_error_app1 in Ha by lia.
      destruct (snoc_cases l) as [-> | [l' [y ->]]]; [discriminate|].
      rewrite length_app in E. cbn in E.
      replace i with (List.length l') in Ha by lia.
      rewrite nth_error_snoc_last in Ha. injection Ha as <-.
      apply lastOf_snoc.
    + rewrite nth_error_app1 in Ha by lia.
      rewrite nth_error_app1 in Hb by lia.
      exact (H i a b Ha Hb).
Qed.


Lemma dotSeconds_unit (wpm : Q) : dotSeconds wpm == unit wpm.
Proof.
  unfold dotSeconds, calculateDotLength, unit, Qdiv.
  setoid_replace (/ 1000) with (1 # 1000) by reflexivity.
  ring.
Qed.

(** * The timing synthesizer *)

Section Synthesizer.

Variable dotMs : Q.










End Synthesizer.



(** In exact arithmetic, at every speed, "E E" synthesizes to four
    intervals: the mark of the first E, one gap, the mark of the second E
    and the trailing gap; the gap between the two marks lasts 7 units. *)
Lemma textToIdealTiming_E_space_E (w : Q) :
  exists e1 gap e2 trailing,
    textToIdealTiming "E E" w = [e1; gap; e2; trailing] /\
    state e1 = on /\ state gap = off /\ state e2 = on /\ state trailing = off /\
    duration gap == 7 * unit w.
Proof.
  unfold textToIdealTiming. generalize (dotSeconds_unit w).
  generalize (dotSeconds w) as u. intros u Hu.
  do 4 eexists. split; [cbv -[Qplus Qmult]; reflexivity|].
  cbn [state duration]. repeat split; try reflexivity.
  rewrite <- Hu. ring.
Qed.



(** "K" at 20 words per minute (unit 60 ms): dash, dot, dash with gaps of
    one unit, then the gap of three units. *)
Example textToIdealTiming_K :
  map (fun s => (Qred (duration s), state s)) (textToIdealTiming "k" 20) =
  [(9 # 50, on); (3 # 50, off); (3 # 50, on); (3 # 50, off); (9 # 50, on);
   (9 # 50, off)].
Proof. reflexivity. Qed.

(** * The go-ahead detector *)

Lemma sliceLast_three (earlier : list SignalInterval) (a b c : SignalInterval) :
  sliceLast 3 (earlier ++ [a; b; c]) = [a; b; c].
Proof.
  unfold sliceLast. rewrite length_app. cbn [List.length].
  replace (List.length earlier + 3 - 3)%nat with (List.length earlier) by lia.
  rewrite skipn_app, skipn_all, Nat.sub_diag. reflexivity.
Qed.

Lemma last_three (l : list SignalInterval) :
  (3 <= List.length l)%nat -> exists earlier a b c, l = earlier ++ [a; b; c].
Proof.
  intros H. exists (firstn (List.length l - 3) l).
  assert (L : List.length (skipn (List.length l - 3) l) = 3%nat)
    by (rewrite length_skipn; lia).
  assert (E := firstn_skipn (List.length l - 3) l).
  destruct (skipn (List.length l - 3) l) as [|a [|b [|c [|x t]]]];
    try discriminate.
  now exists a, b, c.
Qed.

Lemma twice_dot_unit (wpm : Q) : calculateDotLength wpm / 1000 * 2.0 == 2 * unit wpm.
Proof.
  fold (dotSeconds wpm). rewrite (dotSeconds_unit wpm).
  setoid_replace 2.0 with 2 by reflexivity. ring.
Qed.

Lemma detectCommandK_last_three (S earlier : list SignalInterval)
    (a b c : SignalInterval) (w : Q) :
  filter isOn S = earlier ++ [a; b; c] ->
  detectCommandK S w =
  Qltb (calculateDotLength w / 1000 * 2.0) (duration a) &&
  Qltb (duration b) (calculateDotLength w / 1000 * 2.0) &&
  Qltb (calculateDotLength w / 1000 * 2.0) (duration c).
Proof.
  intros E. unfold detectCommandK, detectCommand.
  assert (Hlen : (List.length (filter isOn S) <= List.length S)%nat)
    by apply filter_length_le.
  assert (L : (3 <= List.length (filter isOn S))%nat)
    by (rewrite E, length_app; cbn; lia).
  destruct (List.length S <? 3)%nat eqn:E0; [apply Nat.ltb_lt in E0; lia|].
  destruct (List.length (filter isOn S) <? 3)%nat eqn:E3;
    [apply Nat.ltb_lt in E3; lia|].
  rewrite E, sliceLast_three. cbn [nth_error].
  replace (MORSE_MAP "K") with (Some "-.-"%string) by reflexivity.
  replace (String.eqb "-.-" "-.-") with true by reflexivity.
  reflexivity.
Qed.

(** C9.  [detectCommand(S, w)] (command character K) is true exactly when
    [S] has at least three ON intervals and the last three of them are, in
    order, longer than 2 units, shorter than 2 units and longer than 2
    units. *)
Theorem detectCommand_dash_dot_dash (S : list SignalInterval) (w : Q) :
  detectCommandK S w = true <->
  exists earlier d1 d2 d3,
    filter isOn S = earlier ++ [d1; d2; d3] /\
    2 * unit w < duration d1 /\
    duration d2 < 2 * unit w /\
    2 * unit w < duration d3.
Proof.
  split.
  - intros H.
    assert (L : (3 <= List.length (filter isOn S))%nat).
    { unfold detectCommandK, detectCommand in H.
      destruct (List.length S <? 3)%nat; [discriminate|].
      destruct (List.length (filter isOn S) <? 3)%nat eqn:E3; [discriminate|].
      now apply Nat.ltb_ge in E3. }
    destruct (last_three _ L) as (earlier & a & b & c & E).
    rewrite (detectCommandK_last_three S earlier a b c w E) in H.
    apply andb_true_iff in H. destruct H as [H H3].
    apply andb_true_iff in H. destruct H as [H1 H2].
    apply Qltb_lt in H1, H2, H3. rewrite twice_dot_unit in H1, H2, H3.
    now exists earlier, a, b, c.
  - intros (earlier & a & b & c & E & H1 & H2 & H3).
    rewrite (detectCommandK_last_three S earlier a b c w E).
    rewrite <- (twice_dot_unit w) in H1, H2, H3.
    apply Qltb_lt in H1, H2, H3. now rewrite H1, H2, H3.
Qed.

(** * Alignment *)

Lemma find_noOn (l : list SignalInterval) :
  (forall s, In s l -> state s = off) -> find isOn l = None.
Proof.
  induction l as [|x l IH]; intros H; [reflexivity|].
  cbn [find]. unfold isOn at 1. rewrite (H x (or_introl eq_refl)).
  apply IH. intros s Hs. apply H. now right.
Qed.

(** C8.  Without an ON interval on either side nothing is aligned;
    otherwise every displayed interval is moved by the difference between
    the start of the first ideal ON interval and the start of the first
    displayed ON interval, durations and states kept.  With these starts at
    2.0 s and 0.5 s, every start moves by +1.5 s. *)
Theorem alignedUserSignals_shift (ideal displayed : list SignalInterval) :
  ((forall s, In s ideal -> state s = off) \/
   (forall s, In s displayed -> state s = off) ->
   alignedUserSignals ideal displayed = []) /\
  (forall firstIdeal firstUser,
      find isOn ideal = Some firstIdeal ->
      find isOn displayed = Some firstUser ->
      alignedUserSignals ideal displayed =
      map (fun s => mkInterval
                      (startTime s + (startTime firstIdeal - startTime firstUser))
                      (duration s) (state s))
          displayed) /\
  (forall firstIdeal firstUser,
      find isOn ideal = Some firstIdeal ->
      find isOn displayed = Some firstUser ->
      startTime firstIdeal == 2.0 ->
      startTime firstUser == 0.5 ->
      List.length (alignedUserSignals ideal displayed) = List.length displayed /\
      forall i s,
        nth_error displayed i = Some s ->
        exists s',
          nth_error (alignedUserSignals ideal displayed) i = Some s' /\
          startTime s' == startTime s + 1.5 /\
          duration s' = duration s /\ state s' = state s).
Proof.
  unfold alignedUserSignals. split; [|split].
  - intros [H | H]; rewrite (find_noOn _ H); [reflexivity|].
    now destruct (find isOn ideal).
  - intros fi fu -> ->. reflexivity.
  - intros fi fu -> -> Hi Hu. split; [apply length_map|].
    intros i s Hs. exists (shifted (startTime fi - startTime fu) s). split.
    + now apply map_nth_error.
    + cbn. rewrite Hi, Hu. repeat split. ring.
Qed.

Lemma alignedUserSignals_shift_example :
  alignedUserSignals
    [mkInterval 0 2.0 off; mkInterval 2.0 0.1 on; mkInterval 2.1 0.3 off]
    [mkInterval 0.2 0.3 off; mkInterval 0.5 0.1 on; mkInterval 0.6 0.2 off] =
  [shifted (2.0 - 0.5) (mkInterval 0.2 0.3 off);
   shifted (2.0 - 0.5) (mkInterval 0.5 0.1 on);
   shifted (2.0 - 0.5) (mkInterval 0.6 0.2 off)].
Proof. reflexivity. Qed.

(** * The audio keyer *)

Lemma state_not_off (z : SignalInterval) : state z <> off -> isOn z = true.
Proof. unfold isOn. destruct (state z); congruence. Qed.

Lemma state_not_on (z : SignalInterval) : state z <> on -> isOff z = true.
Proof. unfold isOff. destruct (state z); congruence. Qed.

Lemma length_zero_nil (l : list SignalInterval) :
  (0 <? List.length l)%nat = false -> l = [].
Proof. destruct l; [reflexivity|discriminate]. Qed.

Lemma accumulatorInvariant_nil (b : bool) (t : Q) :
  accumulatorInvariant (mkAcc b [] t).
Proof. split; [apply sequenceInvariant_nil|discriminate]. Qed.

(** Removing the last committed interval reopens it: the open segment now
    starts where that interval started. *)
Lemma accumulatorInvariant_pop (b : bool) (l : list SignalInterval)
    (z : SignalInterval) :
  sequenceInvariant (l ++ [z]) ->
  state z = pendingState b ->
  accumulatorInvariant (mkAcc b l (startTime z)).
Proof.
  intros H Hz. apply sequenceInvariant_snoc in H. destruct H as [Hseq Hfol].
  split; [exact Hseq|]. cbn. intros y Hy. destruct (Hfol y Hy) as [Hs Ht].
  split; [congruence|now symmetry].
Qed.

(** Committing the open segment up to [t] and opening the opposite one. *)
Lemma accumulatorInvariant_push (b : bool) (l : list SignalInterval) (c t : Q) :
  accumulatorInvariant (mkAcc b l c) ->
  accumulatorInvariant
    (mkAcc (negb b) (push l (mkInterval c (t - c) (pendingState b))) t).
Proof.
  intros [Hseq Hlast]. cbn in Hseq, Hlast. split; cbn; unfold push.
  - apply sequenceInvariant_snoc. split; trivial.
    intros z Hz. destruct (Hlast z Hz) as [Hs Ht]. split; cbn; [exact Hs|now symmetry].
  - rewrite lastOf_snoc. intros z [= <-]. cbn. split.
    + destruct b; discriminate.
    + ring.
Qed.

Lemma transitionToOn_invariant (t : Q) (a : Accumulator) :
  signalState a = false ->
  accumulatorInvariant a -> accumulatorInvariant (transitionToOn t a).
Proof.
  destruct a as [b l c]. cbn [signalState]. intros -> Ha.
  unfold transitionToOn. cbn [signals lastChangeTime].
  destruct (Qltb (t - c) 0.015 && (0 <? List.length l)%nat) eqn:E.
  - apply andb_true_iff in E. destruct E as [_ E].
    destruct (snoc_cases l) as [-> | [l' [z ->]]]; [discriminate|].
    rewrite lastOf_snoc, pop_snoc. destruct Ha as [Hseq Hlast].
    cbn [signals signalState lastChangeTime pendingState] in Hseq, Hlast.
    destruct (Hlast z (lastOf_snoc l' z)) as [Hs _].
    rewrite (state_not_off z Hs).
    apply accumulatorInvariant_pop; trivial.
    cbn [pendingState]. destruct (state z); congruence.
  - destruct ((0 <? List.length l)%nat || Qltb 0 c) eqn:E2.
    + exact (accumulatorInvariant_push false l c t Ha).
    + apply orb_false_iff in E2. destruct E2 as [E2 _].
      rewrite (length_zero_nil l E2). apply accumulatorInvariant_nil.
Qed.

Lemma transitionToOff_invariant (t : Q) (a : Accumulator) :
  signalState a = true ->
  accumulatorInvariant a -> accumulatorInvariant (transitionToOff t a).
Proof.
  destruct a as [b l c]. cbn [signalState]. intros -> Ha.
  unfold transitionToOff. cbn [signals lastChangeTime].
  destruct (Qltb (t - c) 0.015) eqn:E.
  - destruct (snoc_cases l) as [-> | [l' [z ->]]].
    + apply accumulatorInvariant_nil.
    + rewrite lastOf_snoc, pop_snoc. destruct Ha as [Hseq Hlast].
      cbn [signals signalState lastChangeTime pendingState] in Hseq, Hlast.
      destruct (Hlast z (lastOf_snoc l' z)) as [Hs _].
      rewrite (state_not_on z Hs).
      apply accumulatorInvariant_pop; trivial.
      cbn [pendingState]. destruct (state z); congruence.
  - exact (accumulatorInvariant_push true l c t Ha).
Qed.

Lemma detect_invariant (th lowerTh t e : Q) (a : Accumulator) :
  accumulatorInvariant a -> accumulatorInvariant (detect th lowerTh t e a).
Proof.
  intros Ha. unfold detect.
  destruct (signalState a) eqn:Es; cbn [negb andb].
  - destruct (Qltb e lowerTh); trivial. now apply transitionToOff_invariant.
  - destruct (Qltb th e); trivial. now apply transitionToOn_invariant.
Qed.

Lemma sampleLoop_invariant (th lowerTh start rate origin : Q) (data : list Q) :
  forall (i : nat) (d : Detector),
    accumulatorInvariant (acc d) ->
    accumulatorInvariant (acc (sampleLoop th lowerTh start rate origin i data d)).
Proof.
  induction data as [|x rest IH]; intros i d Hd; cbn [sampleLoop]; trivial.
  apply IH. unfold processSample. cbn [acc]. now apply detect_invariant.
Qed.

Lemma sessionStep_invariant (k : Keyer) (ev : SessionEvent) :
  accumulatorInvariant (keyerAccumulator k) ->
  accumulatorInvariant (keyerAccumulator (sessionStep k ev)).
Proof.
  intros Hk. destruct ev as [e | th | now]; cbn [sessionStep].
  - unfold onaudioprocess, keyerAccumulator. cbn -[sampleLoop].
    match goal with
    | |- accumulatorInvariant {| signalState := signalState ?x;
                                 signals := _; lastChangeTime := _ |} =>
        assert (H : accumulatorInvariant x)
          by (apply sampleLoop_invariant; exact Hk);
        destruct x; exact H
    end.
  - exact Hk.
  - unfold resetSignals, keyerAccumulator. cbn. apply accumulatorInvariant_nil.
Qed.

Lemma session_invariant (threshold now : Q) (events : list SessionEvent) :
  accumulatorInvariant (keyerAccumulator (session threshold now events)).
Proof.
  unfold session.
  assert (H0 : accumulatorInvariant
                 (keyerAccumulator (startListening now (useAudioKeyer threshold))))
    by apply accumulatorInvariant_nil.
  revert H0. generalize (startListening now (useAudioKeyer threshold)).
  induction events as [|ev rest IH]; intros k Hk; cbn [fold_left]; trivial.
  apply IH. now apply sessionStep_invariant.
Qed.

Lemma stopListening_invariant (now : Q) (k : Keyer) :
  accumulatorInvariant (keyerAccumulator k) ->
  sequenceInvariant (signalsRef (stopListening now k)).
Proof.
  intros Hk. unfold stopListening.
  destruct (audioContextRef k); [|exact (proj1 Hk)].
  destruct (Qltb 0.01 (Qmax 0 (now - startTimeRef k) - lastChangeTimeRef k));
    [|exact (proj1 Hk)].
  cbn [cleanup signalsRef].
  exact (proj1 (accumulatorInvariant_push (isSignalOnRef k) (signalsRef k)
                  (lastChangeTimeRef k) _ Hk)).
Qed.

(** In exact arithmetic, whatever blocks a capture session processes (and
    whatever threshold changes and resets come in between), the committed
    list keeps the sequence invariant: neighbours alternate between on and
    off and each interval starts where the previous one ends.  The final
    flush of [stopListening] keeps it too. *)
Lemma session_sequenceInvariant (threshold now : Q) (events : list SessionEvent) :
  sequenceInvariant (signalsRef (session threshold now events)) /\
  forall stopTime,
    sequenceInvariant
      (signalsRef (stopListening stopTime (session threshold now events))).
Proof.
  split.
  - exact (proj1 (session_invariant threshold now events)).
  - intros stopTime. apply stopListening_invariant, session_invariant.
Qed.

(** *** Transitions of the accumulator *)

Lemma Qltb_false_of_le (x y : Q) : y <= x -> Qltb x y = false.
Proof. apply Qltb_ge. Qed.

Lemma Qltb_true_of_lt (x y : Q) : x < y -> Qltb x y = true.
Proof. apply Qltb_lt. Qed.

Lemma nonempty_length (l : list SignalInterval) :
  l <> [] -> (0 <? List.length l)%nat = true.
Proof. destruct l; [congruence|reflexivity]. Qed.

(** The guard of the OFF segment pushed by a transition to ON. *)
Lemma gap_guard (l : list SignalInterval) (c : Q) :
  l <> [] \/ 0 < c -> ((0 <? List.length l)%nat || Qltb 0 c) = true.
Proof.
  intros [H | H].
  - now rewrite (nonempty_length l H).
  - rewrite (Qltb_true_of_lt _ _ H). apply orb_true_r.
Qed.

(** C3 (amended).  A transition seen at time [t], at least 15 ms after the
    last change, sets [lastChangeTime] to [t] and flips the pending state;
    it pushes the closed segment (start [lastChangeTime], duration the gap,
    state the pending one), except for a transition to ON while nothing is
    committed and [lastChangeTime] is not positive (the first tone after
    start or reset), which pushes nothing. *)
Theorem detect_commits_segment (th lowerTh t e : Q) (a : Accumulator) :
  signalState (detect th lowerTh t e a) <> signalState a ->
  0.015 <= t - lastChangeTime a ->
  lastChangeTime (detect th lowerTh t e a) = t /\
  signalState (detect th lowerTh t e a) = negb (signalState a) /\
  (signalState a = true \/ signals a <> [] \/ 0 < lastChangeTime a ->
   signals (detect th lowerTh t e a) =
   signals a ++
   [mkInterval (lastChangeTime a) (t - lastChangeTime a)
               (pendingState (signalState a))]) /\
  (signalState a = false -> signals a = [] -> lastChangeTime a <= 0 ->
   signals (detect th lowerTh t e a) = []).
Proof.
  destruct a as [b l c]. unfold detect. cbn [signalState signals lastChangeTime].
  intros Hchange Hgap.
  destruct b; cbn [negb andb] in *.
  - destruct (Qltb e lowerTh); [|now contradiction Hchange].
    unfold transitionToOff. cbn [signals lastChangeTime].
    rewrite (Qltb_false_of_le _ _ Hgap). cbn. repeat split; congruence.
  - destruct (Qltb th e); [|now contradiction Hchange].
    unfold transitionToOn. cbn [signals lastChangeTime].
    rewrite (Qltb_false_of_le _ _ Hgap). cbn [andb signals lastChangeTime signalState].
    split; [reflexivity|split; [reflexivity|split]].
    + intros [H | H]; [discriminate|]. now rewrite (gap_guard l c H).
    + intros _ -> Hc. now rewrite (Qltb_false_of_le _ _ Hc).
Qed.

Lemma detect_commits_segment_witness :
  let a := mkAcc true [mkInterval 0.5 0.5 off] 1 in
  signalState (detect 0.31 0.186 1.1 0.1 a) <> signalState a /\
  0.015 <= 1.1 - lastChangeTime a /\
  lastChangeTime (detect 0.31 0.186 1.1 0.1 a) = 1.1 /\
  signalState (detect 0.31 0.186 1.1 0.1 a) = negb (signalState a) /\
  (signalState a = true \/ signals a <> [] \/ 0 < lastChangeTime a ->
   signals (detect 0.31 0.186 1.1 0.1 a) =
   signals a ++
   [mkInterval (lastChangeTime a) (1.1 - lastChangeTime a)
               (pendingState (signalState a))]) /\
  (signalState a = false -> signals a = [] -> lastChangeTime a <= 0 ->
   signals (detect 0.31 0.186 1.1 0.1 a) = []).
Proof.
  cbv zeta.
  assert (H1 : signalState
                 (detect 0.31 0.186 1.1 0.1 (mkAcc true [mkInterval 0.5 0.5 off] 1))
               <> signalState (mkAcc true [mkInterval 0.5 0.5 off] 1))
    by (vm_compute; discriminate).
  assert (H2 : 0.015 <= 1.1 - lastChangeTime (mkAcc true [mkInterval 0.5 0.5 off] 1))
    by (vm_compute; discriminate).
  split; [exact H1|]. split; [exact H2|].
  exact (detect_commits_segment 0.31 0.186 1.1 0.1
           (mkAcc true [mkInterval 0.5 0.5 off] 1) H1 H2).
Defined.

(** C3 as stated fails on the first tone of a session: the transition to ON
    at 1 s, a full second after the start, pushes nothing. *)
Lemma first_tone_commits_nothing :
  let a0 := keyerAccumulator (startListening 0 (useAudioKeyer 0.31)) in
  let a1 := detect 0.31 0.186 1 0.4 a0 in
  signalState a1 <> signalState a0 /\
  0.015 <= 1 - lastChangeTime a0 /\
  signals a1 = [] /\
  signals a1 <>
  signals a0 ++
  [mkInterval (lastChangeTime a0) (1 - lastChangeTime a0)
              (pendingState (signalState a0))].
Proof.
  cbv zeta. split; [vm_compute; discriminate|].
  split; [vm_compute; discriminate|].
  split; [reflexivity|]. vm_compute. discriminate.
Qed.

(** X28.  A pulse that starts at [t1] and ends at [t2], less than 15 ms
    later, after a gap that the transition at [t1] committed (the list was
    not empty and the gap lasted 15 ms or more, or the list was empty and
    [lastChangeTime] positive): the transition at [t2] pops that OFF
    interval and restores [lastChangeTime], so the accumulator is as it was
    before the pulse, and the next tone, at [t3], commits one OFF interval
    from the start of the first gap to [t3]. *)
Theorem glitch_reopens_gap (th lowerTh t1 e1 t2 e2 : Q) (a : Accumulator) :
  signalState a = false ->
  th < e1 ->
  e2 < lowerTh ->
  t2 - t1 < 0.015 ->
  signals a <> [] \/ 0 < lastChangeTime a ->
  (signals a <> [] -> 0.015 <= t1 - lastChangeTime a) ->
  signals (detect th lowerTh t1 e1 a) =
    signals a ++ [mkInterval (lastChangeTime a) (t1 - lastChangeTime a) off] /\
  detect th lowerTh t2 e2 (detect th lowerTh t1 e1 a) = a /\
  forall t3 e3,
    th < e3 -> 0.015 <= t3 - lastChangeTime a ->
    signals (detect th lowerTh t3 e3
               (detect th lowerTh t2 e2 (detect th lowerTh t1 e1 a))) =
    signals a ++ [mkInterval (lastChangeTime a) (t3 - lastChangeTime a) off].
Proof.
  destruct a as [b l c]. cbn [signalState signals lastChangeTime].
  intros -> H1 H2 Hshort Hguard Hgap.
  assert (On : forall t e, th < e ->
             (l <> [] -> 0.015 <= t - c) ->
             detect th lowerTh t e (mkAcc false l c) =
             mkAcc true (l ++ [mkInterval c (t - c) off]) t).
  { intros t e He Hg. unfold detect. cbn [signalState negb andb].
    rewrite (Qltb_true_of_lt _ _ He). unfold transitionToOn.
    cbn [signals lastChangeTime].
    replace (Qltb (t - c) 0.015 && (0 <? List.length l)%nat) with false.
    - now rewrite (gap_guard l c Hguard).
    - symmetry. destruct l as [|x l']; [apply andb_false_r|].
      rewrite (Qltb_false_of_le (t - c) 0.015); [reflexivity|].
      apply Hg. discriminate. }
  rewrite (On t1 e1 H1 Hgap). cbn [signals].
  assert (Off : detect th lowerTh t2 e2
                  (mkAcc true (l ++ [mkInterval c (t1 - c) off]) t1) =
                mkAcc false l c).
  { unfold detect. cbn [signalState negb andb].
    rewrite (Qltb_true_of_lt _ _ H2). unfold transitionToOff.
    cbn [signals lastChangeTime].
    rewrite (Qltb_true_of_lt _ _ Hshort), lastOf_snoc, pop_snoc. reflexivity. }
  rewrite Off. split; [reflexivity|]. split; [reflexivity|].
  intros t3 e3 H3 Hg3. now rewrite (On t3 e3 H3 (fun _ => Hg3)).
Qed.

Lemma glitch_reopens_gap_witness :
  let a := mkAcc false [mkInterval 0.2 0.3 on] 0.5 in
  signalState a = false /\
  0.31 < 0.4 /\
  0.1 < 0.186 /\
  1.005 - 1 < 0.015 /\
  (signals a <> [] \/ 0 < lastChangeTime a) /\
  (signals a <> [] -> 0.015 <= 1 - lastChangeTime a) /\
  signals (detect 0.31 0.186 1 0.4 a) =
    signals a ++ [mkInterval (lastChangeTime a) (1 - lastChangeTime a) off] /\
  detect 0.31 0.186 1.005 0.1 (detect 0.31 0.186 1 0.4 a) = a /\
  forall t3 e3,
    0.31 < e3 -> 0.015 <= t3 - lastChangeTime a ->
    signals (detect 0.31 0.186 t3 e3
               (detect 0.31 0.186 1.005 0.1 (detect 0.31 0.186 1 0.4 a))) =
    signals a ++ [mkInterval (lastChangeTime a) (t3 - lastChangeTime a) off].
Proof.
  cbv zeta.
  assert (H0 : signalState (mkAcc false [mkInterval 0.2 0.3 on] 0.5) = false)
    by reflexivity.
  assert (H1 : 0.31 < 0.4) by reflexivity.
  assert (H2 : 0.1 < 0.186) by reflexivity.
  assert (H3 : 1.005 - 1 < 0.015) by reflexivity.
  assert (H4 : signals (mkAcc false [mkInterval 0.2 0.3 on] 0.5) <> [] \/
               0 < lastChangeTime (mkAcc false [mkInterval 0.2 0.3 on] 0.5))
    by (left; discriminate).
  assert (H5 : signals (mkAcc false [mkInterval 0.2 0.3 on] 0.5) <> [] ->
               0.015 <= 1 - lastChangeTime (mkAcc false [mkInterval 0.2 0.3 on] 0.5))
    by (intros _; vm_compute; discriminate).
  repeat (split; [assumption|]).
  exact (glitch_reopens_gap 0.31 0.186 1 0.4 1.005 0.1
           (mkAcc false [mkInterval 0.2 0.3 on] 0.5) H0 H1 H2 H3 H4 H5).
Defined.

(** At the start of a capture the pulse is not undone: silence from 0 to
    1 s, a pulse of 5 ms, silence again and a tone at 2 s.  Nothing is
    committed when the pulse starts, so nothing is popped when it ends and
    [lastChangeTime] stays at the start of the pulse, where the branch
    "Transition to ON" had moved it; the OFF interval committed at 2 s
    starts at 1 s, and the silence from 0 to 1 s is in no interval. *)
Lemma glitch_at_start_of_capture :
  let a0 := keyerAccumulator (startListening 0 (useAudioKeyer 0.31)) in
  let a1 := detect 0.31 0.186 1 0.4 a0 in
  let a2 := detect 0.31 0.186 1.005 0.1 a1 in
  let a3 := detect 0.31 0.186 2 0.4 a2 in
  (signalState a0 = false /\ signalState a1 = true /\ signalState a2 = false) /\
  1.005 - 1 < 0.015 /\
  signals a1 = [] /\
  a2 <> a0 /\
  lastChangeTime a0 = 0 /\ lastChangeTime a2 = 1 /\
  signals a3 = [mkInterval 1 (2 - 1) off].
Proof.
  cbv zeta. repeat split; try reflexivity. vm_compute. discriminate.
Qed.

(** *** Stopping *)

(** C5.  [stopListening] on a session whose audio context exists commits the
    open segment exactly when it lasts more than 10 ms: the interval added
    starts at [lastChangeTime], lasts the session time elapsed since, and is
    ON when the signal is on and OFF when it is off.  Otherwise it adds
    nothing, and it ends the session either way. *)
Theorem stopListening_flushes_open_segment (now : Q) (k : Keyer) :
  audioContextRef k = true ->
  let duration := Qmax 0 (now - startTimeRef k) - lastChangeTimeRef k in
  (0.01 < duration ->
   signalsRef (stopListening now k) =
   signalsRef k ++
   [mkInterval (lastChangeTimeRef k) duration
               (if isSignalOnRef k then on else off)]) /\
  (duration <= 0.01 -> signalsRef (stopListening now k) = signalsRef k) /\
  isListening (stopListening now k) = false /\
  audioContextRef (stopListening now k) = false.
Proof.
  intros Hctx duration. unfold stopListening. rewrite Hctx. fold duration.
  split; [|split].
  - intros H. rewrite (Qltb_true_of_lt _ _ H). cbn [cleanup signalsRef].
    unfold pendingState. reflexivity.
  - intros H. now rewrite (Qltb_false_of_le _ _ H).
  - destruct (Qltb 0.01 duration); split; reflexivity.
Qed.

(** A tone held since 0.75 s, stopped at 1 s of session time: the tone is
    committed as an ON interval of 0.25 s. *)
Lemma stopListening_flushes_open_segment_witness :
  let k := mkKeyer true true [mkInterval 0.5 0.25 off] true 0.75 10 0 0 0.31 in
  let duration := Qmax 0 (11 - startTimeRef k) - lastChangeTimeRef k in
  audioContextRef k = true /\
  isSignalOnRef k = true /\
  0.01 < duration /\
  reduced (signalsRef (stopListening 11 k)) =
    [mkInterval (1 # 2) (1 # 4) off; mkInterval (3 # 4) (1 # 4) on] /\
  (0.01 < duration ->
   signalsRef (stopListening 11 k) =
   signalsRef k ++ [mkInterval (lastChangeTimeRef k) duration on]) /\
  (duration <= 0.01 -> signalsRef (stopListening 11 k) = signalsRef k) /\
  isListening (stopListening 11 k) = false /\
  audioContextRef (stopListening 11 k) = false.
Proof.
  cbv zeta. split; [reflexivity|]. split; [reflexivity|].
  split; [reflexivity|]. split; [reflexivity|].
  exact (stopListening_flushes_open_segment 11
           (mkKeyer true true [mkInterval 0.5 0.25 off] true 0.75 10 0 0 0.31)
           eq_refl).
Defined.

(** C4.  For a listening keyer whose pending state is OFF, with [silence]
    the session time since the last change: when something is committed,
    [updateUI] stops the session if the silence exceeds 5 s (so at 5.1 s)
    and otherwise (so at 4.9 s) leaves the keyer as it is and asks for the
    next frame; when nothing is committed it always does the latter. *)
Theorem updateUI_auto_stop (now : Q) (k : Keyer) :
  isListening k = true ->
  audioContextRef k = true ->
  isSignalOnRef k = false ->
  let silence := Qmax 0 (now - startTimeRef k) - lastChangeTimeRef k in
  (signalsRef k <> [] ->
   (5 < silence ->
    updateUI now k = (stopListening now k, false) /\
    isListening (stopListening now k) = false) /\
   (silence <= 5 -> updateUI now k = (k, true)) /\
   (silence == 5.1 -> updateUI now k = (stopListening now k, false)) /\
   (silence == 4.9 -> updateUI now k = (k, true))) /\
  (signalsRef k = [] -> updateUI now k = (k, true)).
Proof.
  intros Hl Hctx Hoff silence.
  assert (Stop : signalsRef k <> [] -> 5 < silence ->
                 updateUI now k = (stopListening now k, false)).
  { intros Hne H. unfold updateUI. rewrite Hl, Hctx, Hoff. cbn [negb andb].
    fold silence. rewrite (nonempty_length _ Hne).
    assert (H' : 5.0 < silence) by (clearbody silence; lra).
    now rewrite (Qltb_true_of_lt 5.0 silence H'). }
  assert (Go : silence <= 5 -> updateUI now k = (k, true)).
  { intros H. unfold updateUI. rewrite Hl, Hctx, Hoff. cbn [negb andb].
    fold silence.
    assert (H' : silence <= 5.0) by (clearbody silence; lra).
    rewrite (Qltb_false_of_le 5.0 silence H').
    now rewrite andb_false_r. }
  split.
  - intros Hne. split; [|split; [|split]].
    + intros H. split; [now apply Stop|].
      unfold stopListening. rewrite Hctx.
      now destruct (Qltb 0.01 (Qmax 0 (now - startTimeRef k) - lastChangeTimeRef k)).
    + exact Go.
    + intros H. apply Stop; trivial. clearbody silence. lra.
    + intros H. apply Go. clearbody silence. lra.
  - intros E. unfold updateUI. rewrite E. cbn [List.length Nat.ltb Nat.leb andb].
    now destruct (isListening k && negb (isSignalOnRef k) && audioContextRef k).
Qed.

Lemma updateUI_auto_stop_witness :
  let k := mkKeyer true true [mkInterval 0.5 0.25 on] false 0.75 10 0 0 0.31 in
  let now := 15.85 in
  let silence := Qmax 0 (now - startTimeRef k) - lastChangeTimeRef k in
  isListening k = true /\
  audioContextRef k = true /\
  isSignalOnRef k = false /\
  silence == 5.1 /\
  (signalsRef k <> [] ->
   (5 < silence ->
    updateUI now k = (stopListening now k, false) /\
    isListening (stopListening now k) = false) /\
   (silence <= 5 -> updateUI now k = (k, true)) /\
   (silence == 5.1 -> updateUI now k = (stopListening now k, false)) /\
   (silence == 4.9 -> updateUI now k = (k, true))) /\
  (signalsRef k = [] -> updateUI now k = (k, true)).
Proof.
  cbv zeta. repeat (split; [reflexivity|]).
  exact (updateUI_auto_stop 15.85
           (mkKeyer true true [mkInterval 0.5 0.25 on] false 0.75 10 0 0 0.31)
           eq_refl eq_refl eq_refl).
Defined.

(** *** Sessions on sample blocks *)

(** The first tone of a session, in the third block, 1324 samples (27.6 ms)
    after the start: the silence before it is not committed. *)
Example first_tone_in_a_block :
  let k := session 0.31 0
             [AudioProcess (block 2 (repeat 0 300 ++ repeat 1 212))] in
  signalsRef k = [] /\ isSignalOnRef k = true /\
  Qred (lastChangeTimeRef k) = 331 # 12000.
Proof. vm_compute. repeat split. Qed.

(** A click of one sample 450 samples (9.4 ms) after the start, then a tone
    from sample 500 on: the click is over after 38 samples of decay, and the
    tone commits an OFF interval that starts at the click. *)
Example click_before_first_tone_in_a_block :
  let k := session 0.31 0
             [AudioProcess
                (block 0 (repeat 0 450 ++ [1] ++ repeat 0 49 ++ repeat 1 12))] in
  reduced (signalsRef k) = [mkInterval (3 # 320) (1 # 960) off] /\
  isSignalOnRef k = true.
Proof. vm_compute. repeat split. Qed.

(** The same block without the click commits nothing. *)
Example first_tone_in_a_block_without_click :
  let k := session 0.31 0
             [AudioProcess (block 0 (repeat 0 500 ++ repeat 1 12))] in
  signalsRef k = [] /\ isSignalOnRef k = true.
Proof. vm_compute. repeat split. Qed.

(** * More about the audio keyer *)

(** ** Induction over a capture session *)

Section SessionInduction.

Variable P : Accumulator -> Prop.

Hypothesis P_start : P (mkAcc false [] 0).

Hypothesis P_on : forall t a,
  0 <= t -> signalState a = false -> P a -> P (transitionToOn t a).

Hypothesis P_off : forall t a,
  0 <= t -> signalState a = true -> P a -> P (transitionToOff t a).

Lemma sampleTime_nonneg (start rate origin : Q) (i : nat) :
  0 <= sampleTime start rate origin i.
Proof. unfold sampleTime. apply Q.le_max_l. Qed.

Lemma detect_preserves (th lowerTh t e : Q) (a : Accumulator) :
  0 <= t -> P a -> P (detect th lowerTh t e a).
Proof.
  intros Ht Ha. unfold detect.
  destruct (signalState a) eqn:Es; cbn [negb andb].
  - destruct (Qltb e lowerTh); trivial. now apply P_off.
  - destruct (Qltb th e); trivial. now apply P_on.
Qed.

Lemma sampleLoop_preserves (th lowerTh start rate origin : Q) (data : list Q) :
  forall (i : nat) (d : Detector),
    P (acc d) -> P (acc (sampleLoop th lowerTh start rate origin i data d)).
Proof.
  induction data as [|x rest IH]; intros i d Hd; cbn [sampleLoop]; trivial.
  apply IH. unfold processSample. cbn [acc].
  apply detect_preserves; trivial. apply sampleTime_nonneg.
Qed.

Lemma onaudioprocess_preserves (e : AudioProcessingEvent) (k : Keyer) :
  P (keyerAccumulator k) -> P (keyerAccumulator (onaudioprocess e k)).
Proof.
  intros Hk. unfold onaudioprocess, keyerAccumulator. cbn -[sampleLoop].
  match goal with
  | |- P {| signalState := signalState ?x; signals := _; lastChangeTime := _ |} =>
      assert (H : P x) by (apply sampleLoop_preserves; exact Hk);
      destruct x; exact H
  end.
Qed.

Lemma sessionStep_preserves (k : Keyer) (ev : SessionEvent) :
  audioContextRef k = true /\ P (keyerAccumulator k) ->
  audioContextRef (sessionStep k ev) = true /\
  P (keyerAccumulator (sessionStep k ev)).
Proof.
  intros [Hc Hk]. destruct ev as [e | th | now]; cbn [sessionStep].
  - split; [exact Hc|]. now apply onaudioprocess_preserves.
  - split; [exact Hc|exact Hk].
  - split; [exact Hc|].
    unfold resetSignals, keyerAccumulator. cbn. rewrite Hc. exact P_start.
Qed.

Lemma session_preserves (threshold now : Q) (events : list SessionEvent) :
  audioContextRef (session threshold now events) = true /\
  P (keyerAccumulator (session threshold now events)).
Proof.
  unfold session.
  assert (H0 : audioContextRef (startListening now (useAudioKeyer threshold)) = true /\
               P (keyerAccumulator (startListening now (useAudioKeyer threshold))))
    by (split; [reflexivity|exact P_start]).
  revert H0. generalize (startListening now (useAudioKeyer threshold)).
  induction events as [|ev rest IH]; intros k Hk; cbn [fold_left]; trivial.
  apply IH. now apply sessionStep_preserves.
Qed.

End SessionInduction.

(** ** The debounce guarantee *)

Lemma debounced_nil : debounced [].
Proof. intros [|i] s H; discriminate. Qed.

Lemma debounced_prefix (l : list SignalInterval) (x : SignalInterval) :
  debounced (l ++ [x]) -> debounced l.
Proof.
  intros H i s Hi. apply (H i).
  rewrite nth_error_app1; trivial. apply nth_error_Some. congruence.
Qed.

Lemma debounced_snoc (l : list SignalInterval) (x : SignalInterval) :
  debounced l ->
  (l <> [] \/ state x = on -> 0.015 <= duration x) ->
  debounced (l ++ [x]).
Proof.
  intros Hl Hx i s Hi Hc.
  destruct (Nat.lt_ge_cases i (List.length l)) as [Lt | Ge].
  - rewrite nth_error_app1 in Hi by trivial. now apply (Hl i).
  - assert (Hi' : (i < List.length (l ++ [x]))%nat)
      by (apply nth_error_Some; congruence).
    rewrite length_app in Hi'. cbn [List.length] in Hi'.
    replace i with (List.length l) in * by lia.
    rewrite nth_error_snoc_last in Hi. injection Hi as <-.
    apply Hx. destruct Hc as [Hc | Hc]; [left|now right].
    destruct l; [cbn in Hc; lia|discriminate].
Qed.

Lemma transitionToOn_debounced (t : Q) (a : Accumulator) :
  debounced (signals a) -> debounced (signals (transitionToOn t a)).
Proof.
  destruct a as [b l c]. cbn [signals]. intros Hl.
  unfold transitionToOn. cbn [signals lastChangeTime].
  destruct (Qltb (t - c) 0.015 && (0 <? List.length l)%nat) eqn:E; cbn [signals].
  - destruct (snoc_cases l) as [-> | [l' [z ->]]]; [exact debounced_nil|].
    rewrite pop_snoc. now apply debounced_prefix with z.
  - destruct ((0 <? List.length l)%nat || Qltb 0 c); trivial.
    apply debounced_snoc; trivial. cbn [state duration].
    intros [Hne | Hon]; [|discriminate].
    rewrite (nonempty_length l Hne), andb_true_r in E. now apply Qltb_ge.
Qed.

Lemma transitionToOff_debounced (t : Q) (a : Accumulator) :
  debounced (signals a) -> debounced (signals (transitionToOff t a)).
Proof.
  destruct a as [b l c]. cbn [signals]. intros Hl.
  unfold transitionToOff. cbn [signals lastChangeTime].
  destruct (Qltb (t - c) 0.015) eqn:E.
  - destruct (lastOf l) as [z|] eqn:Ez; trivial.
    destruct (isOff z); trivial. cbn [signals].
    destruct (lastOf_inv _ _ Ez) as [l' ->].
    rewrite pop_snoc. now apply debounced_prefix with z.
  - cbn [signals]. apply debounced_snoc; trivial. cbn [state duration].
    intros _. now apply Qltb_ge.
Qed.

(** X1.  Whatever a capture session has processed, every committed ON
    interval lasts 15 ms or more, and so does every committed OFF interval
    except possibly one in first position; after [stopListening] every such
    interval lasts more than 10 ms. *)
Theorem session_debounced (threshold now : Q) (events : list SessionEvent) :
  debounced (signalsRef (session threshold now events)) /\
  forall stopTime i s,
    nth_error (signalsRef (stopListening stopTime (session threshold now events))) i
      = Some s ->
    ((0 < i)%nat \/ state s = on) -> 0.01 < duration s.
Proof.
  assert (H : debounced (signalsRef (session threshold now events))).
  { apply (session_preserves (fun a => debounced (signals a))).
    - exact debounced_nil.
    - intros t a _ _. apply transitionToOn_debounced.
    - intros t a _ _. apply transitionToOff_debounced. }
  split; [exact H|].
  intros stopTime i s. generalize (session threshold now events) H. clear.
  intros k H Hi Hc. unfold stopListening in Hi.
  assert (Old : forall j z, nth_error (signalsRef k) j = Some z ->
                  (0 < j)%nat \/ state z = on -> 0.01 < duration z).
  { intros j z Hj Hz. apply Qlt_le_trans with 0.015; [reflexivity|].
    now apply (H j). }
  destruct (audioContextRef k); [|now apply (Old i)].
  destruct (Qltb_cases 0.01 (Qmax 0 (stopTime - startTimeRef k) - lastChangeTimeRef k))
    as [[E Hd] | [E _]]; rewrite E in Hi; cbn [cleanup signalsRef] in Hi;
    [|now apply (Old i)].
  destruct (Nat.lt_ge_cases i (List.length (signalsRef k))) as [Lt | Ge].
  - rewrite nth_error_app1 in Hi by trivial. now apply (Old i).
  - assert (Hi' : (i < List.length (signalsRef k ++
                      [mkInterval (lastChangeTimeRef k)
                         (Qmax 0 (stopTime - startTimeRef k) - lastChangeTimeRef k)
                         (pendingState (isSignalOnRef k))]))%nat)
      by (apply nth_error_Some; congruence).
    rewrite length_app in Hi'. cbn [List.length] in Hi'.
    replace i with (List.length (signalsRef k)) in Hi by lia.
    rewrite nth_error_snoc_last in Hi. injection Hi as <-. exact Hd.
Qed.

(** ** Times are never before the origin *)

Lemma In_pop (l : list SignalInterval) (s : SignalInterval) :
  In s (pop l) -> In s l.
Proof.
  destruct (snoc_cases l) as [-> | [l' [z ->]]]; [trivial|].
  rewrite pop_snoc. intros H. apply in_or_app. now left.
Qed.

Lemma lastOf_In (l : list SignalInterval) (z : SignalInterval) :
  lastOf l = Some z -> In z l.
Proof.
  intros H. destruct (lastOf_inv _ _ H) as [l' ->].
  apply in_or_app. right. now left.
Qed.

Lemma transitionToOn_afterOrigin (t : Q) (a : Accumulator) :
  0 <= t -> afterOrigin a -> afterOrigin (transitionToOn t a).
Proof.
  destruct a as [b l c]. intros Ht [Hc Hl]. cbn [signals lastChangeTime] in Hc, Hl.
  unfold transitionToOn, afterOrigin. cbn [signals lastChangeTime].
  destruct (Qltb (t - c) 0.015 && (0 <? List.length l)%nat);
    cbn [signals lastChangeTime]; split.
  - destruct (lastOf l) as [z|] eqn:Ez; trivial.
    destruct (isOn z); trivial. apply Hl. now apply lastOf_In.
  - intros s Hs. apply Hl. now apply In_pop.
  - exact Ht.
  - destruct ((0 <? List.length l)%nat || Qltb 0 c); trivial.
    intros s Hs. apply in_app_or in Hs. destruct Hs as [Hs | [<- | []]]; auto.
Qed.

Lemma transitionToOff_afterOrigin (t : Q) (a : Accumulator) :
  0 <= t -> afterOrigin a -> afterOrigin (transitionToOff t a).
Proof.
  destruct a as [b l c]. intros Ht [Hc Hl]. cbn [signals lastChangeTime] in Hc, Hl.
  unfold transitionToOff, afterOrigin. cbn [signals lastChangeTime].
  destruct (Qltb (t - c) 0.015).
  - destruct (lastOf l) as [z|] eqn:Ez; [|now split].
    destruct (isOff z); cbn [signals lastChangeTime]; [|now split].
    split.
    + apply Hl. now apply lastOf_In.
    + intros s Hs. apply Hl. now apply In_pop.
  - cbn [signals lastChangeTime]. split; [exact Ht|].
    intros s Hs. apply in_app_or in Hs. destruct Hs as [Hs | [<- | []]]; auto.
Qed.

(** X2.  Whatever playback times the blocks of a session carry (also times
    before the origin, or going backwards), no committed interval and no
    open segment starts before time 0 of the session, and this still holds
    of the list left by [stopListening]. *)
Theorem session_afterOrigin (threshold now : Q) (events : list SessionEvent) :
  afterOrigin (keyerAccumulator (session threshold now events)) /\
  forall stopTime s,
    In s (signalsRef (stopListening stopTime (session threshold now events))) ->
    0 <= startTime s.
Proof.
  assert (H : afterOrigin (keyerAccumulator (session threshold now events))).
  { apply (session_preserves afterOrigin).
    - split; [discriminate|intros s []].
    - intros t a Ht _. now apply transitionToOn_afterOrigin.
    - intros t a Ht _. now apply transitionToOff_afterOrigin. }
  split; [exact H|].
  intros stopTime s. generalize (session threshold now events) H. clear.
  intros k [Hc Hl]. cbn [keyerAccumulator signals lastChangeTime] in Hc, Hl.
  unfold stopListening.
  destruct (audioContextRef k); [|apply Hl].
  destruct (Qltb 0.01 (Qmax 0 (stopTime - startTimeRef k) - lastChangeTimeRef k));
    cbn [cleanup signalsRef]; [|apply Hl].
  intros Hs. apply in_app_or in Hs. destruct Hs as [Hs | [<- | []]]; auto.
Qed.

(** ** Threshold and level *)

Lemma follow_below (th e x : Q) : e <= th -> Qabs x <= th -> follow e (Qabs x) <= th.
Proof.
  intros He Hx. unfold follow.
  destruct (Qltb_cases e (Qabs x)) as [[-> _] | [-> Hle]].
  - setoid_replace th with (th * 0.6 + th * 0.4) by ring.
    apply Qplus_le_compat; apply Qmult_le_compat_r; trivial; discriminate.
  - assert (H0 : 0 <= e) by (apply Qle_trans with (Qabs x); [apply Qabs_nonneg|exact Hle]).
    apply Qle_trans with e; trivial.
    setoid_replace e with (e * 1) at 2 by ring.
    rewrite (Qmult_comm e 0.98), (Qmult_comm e 1).
    apply Qmult_le_compat_r; trivial. discriminate.
Qed.

Lemma sampleLoop_quiet (th lowerTh start rate origin : Q) (data : list Q) :
  (forall x, In x data -> Qabs x <= th) ->
  forall (i : nat) (d : Detector),
    signalState (acc d) = false ->
    env d <= th ->
    acc (sampleLoop th lowerTh start rate origin i data d) = acc d.
Proof.
  induction data as [|x rest IH]; intros Hq i d Hs He; cbn [sampleLoop]; trivial.
  assert (Hf : follow (env d) (Qabs x) <= th)
    by (apply follow_below; trivial; apply Hq; now left).
  assert (Hstep : acc (processSample th lowerTh start rate origin i x d) = acc d).
  { unfold processSample. cbn [acc]. unfold detect. rewrite Hs. cbn [negb andb].
    now rewrite (Qltb_false_of_le _ _ Hf). }
  rewrite IH.
  - exact Hstep.
  - intros y Hy. apply Hq. now right.
  - now rewrite Hstep.
  - exact Hf.
Qed.

Lemma sampleLoop_env_below (th lowerTh start rate origin : Q) (data : list Q) :
  (forall x, In x data -> Qabs x <= th) ->
  forall (i : nat) (d : Detector),
    env d <= th ->
    env (sampleLoop th lowerTh start rate origin i data d) <= th.
Proof.
  induction data as [|x rest IH]; intros Hq i d He; cbn [sampleLoop]; trivial.
  apply IH.
  - intros y Hy. apply Hq. now right.
  - unfold processSample. cbn [env]. apply follow_below; trivial.
    apply Hq. now left.
Qed.

(** X3.  A block whose samples never exceed the threshold in absolute value
    changes nothing for a keyer that is OFF with its envelope at or below
    the threshold: no transition, the committed list, the open segment and
    the pending state stay as they are, and the envelope stays at or below
    the threshold (so this holds block after block). *)
Theorem onaudioprocess_quiet (e : AudioProcessingEvent) (k : Keyer) :
  isSignalOnRef k = false ->
  smoothedEnvRef k <= thresholdRef k ->
  (forall x, In x (inputData e) -> Qabs x <= thresholdRef k) ->
  keyerAccumulator (onaudioprocess e k) = keyerAccumulator k /\
  smoothedEnvRef (onaudioprocess e k) <= thresholdRef (onaudioprocess e k).
Proof.
  intros Hs He Hq. unfold onaudioprocess, keyerAccumulator. cbn -[sampleLoop].
  split.
  - match goal with
    | |- {| signalState := signalState (acc ?x); signals := _; lastChangeTime := _ |} = _ =>
        assert (H : acc x = {| signalState := isSignalOnRef k; signals := signalsRef k;
                               lastChangeTime := lastChangeTimeRef k |})
          by (apply sampleLoop_quiet; trivial)
    end.
    now rewrite H.
  - now apply sampleLoop_env_below.
Qed.

Lemma onaudioprocess_quiet_witness :
  let k := session 0.31 0 [] in
  let e := block 0 [0.1; -0.3; 0.31; 0] in
  isSignalOnRef k = false /\
  smoothedEnvRef k <= thresholdRef k /\
  (forall x, In x (inputData e) -> Qabs x <= thresholdRef k) /\
  keyerAccumulator (onaudioprocess e k) = keyerAccumulator k /\
  smoothedEnvRef (onaudioprocess e k) <= thresholdRef (onaudioprocess e k).
Proof.
  cbv zeta.
  assert (H1 : isSignalOnRef (session 0.31 0 []) = false) by reflexivity.
  assert (H2 : smoothedEnvRef (session 0.31 0 []) <= thresholdRef (session 0.31 0 []))
    by (vm_compute; discriminate).
  assert (H3 : forall x, In x (inputData (block 0 [0.1; -0.3; 0.31; 0])) ->
               Qabs x <= thresholdRef (session 0.31 0 [])).
  { intros x [<- | [<- | [<- | [<- | []]]]]; vm_compute; discriminate. }
  split; [exact H1|]. split; [exact H2|]. split; [exact H3|].
  exact (onaudioprocess_quiet (block 0 [0.1; -0.3; 0.31; 0]) (session 0.31 0 []) H1 H2 H3).
Defined.

(** The running maximum of the loop. *)
Lemma sampleLoop_maxVal (th lowerTh start rate origin : Q) (data : list Q) :
  forall (i : nat) (d : Detector),
    let d' := sampleLoop th lowerTh start rate origin i data d in
    maxValInChunk d <= maxValInChunk d' /\
    (forall x, In x data -> Qabs x <= maxValInChunk d') /\
    (maxValInChunk d' = maxValInChunk d \/
     exists x, In x data /\ maxValInChunk d' = Qabs x).
Proof.
  induction data as [|x rest IH]; intros i d; cbn [sampleLoop].
  - cbv zeta. split; [apply Qle_refl|]. split; [intros x []|now left].
  - specialize (IH (S i) (processSample th lowerTh start rate origin i x d)).
    cbv zeta in *. destruct IH as (Hle & Hall & Hatt).
    set (d1 := processSample th lowerTh start rate origin i x d) in *.
    assert (H1 : maxValInChunk d <= maxValInChunk d1 /\ Qabs x <= maxValInChunk d1 /\
                 (maxValInChunk d1 = maxValInChunk d \/ maxValInChunk d1 = Qabs x)).
    { unfold d1, processSample. cbn [maxValInChunk].
      destruct (Qltb_cases (maxValInChunk d) (Qabs x)) as [[-> Hlt] | [-> Hge]].
      - split; [now apply Qlt_le_weak|]. split; [apply Qle_refl|now right].
      - split; [apply Qle_refl|]. split; [exact Hge|now left]. }
    destruct H1 as (Ha & Hb & Hc).
    split; [now apply Qle_trans with (maxValInChunk d1)|]. split.
    + intros y [<- | Hy]; [now apply Qle_trans with (maxValInChunk d1)|now apply Hall].
    + destruct Hatt as [E | [y [Hy E]]].
      * rewrite E. destruct Hc as [E' | E']; [now left|].
        right. exists x. split; [now left|exact E'].
      * right. exists y. split; [now right|exact E].
Qed.

(** X4.  After a block, [currentLevelRef] is the peak of the block: no
    sample exceeds it in absolute value, and it is the absolute value of one
    of the samples, or 0 when no sample is above 0 (an empty block, or
    silence). *)
Theorem onaudioprocess_level_is_peak (e : AudioProcessingEvent) (k : Keyer) :
  (forall x, In x (inputData e) -> Qabs x <= currentLevelRef (onaudioprocess e k)) /\
  (currentLevelRef (onaudioprocess e k) = 0 \/
   exists x, In x (inputData e) /\ currentLevelRef (onaudioprocess e k) = Qabs x).
Proof.
  unfold onaudioprocess. cbn -[sampleLoop].
  match goal with
  | |- context [maxValInChunk (sampleLoop ?a ?b ?c ?d ?o ?i ?data ?d0)] =>
      destruct (sampleLoop_maxVal a b c d o data i d0) as (_ & Hall & Hatt)
  end.
  split; [exact Hall|exact Hatt].
Qed.

Lemma follow_nonneg (e x : Q) : 0 <= e -> 0 <= follow e (Qabs x).
Proof.
  intros He. unfold follow. assert (Hx := Qabs_nonneg x).
  destruct (Qltb e (Qabs x)).
  - apply Qle_trans with (0 + 0); [discriminate|].
    apply Qplus_le_compat; apply Qmult_le_0_compat; trivial; discriminate.
  - apply Qmult_le_0_compat; trivial. discriminate.
Qed.

Lemma follow_loud (th e x : Q) :
  0 < th -> 0 <= e -> 2.5 * th < Qabs x -> th < follow e (Qabs x).
Proof.
  intros Hth He Hx. unfold follow.
  destruct (Qltb_cases e (Qabs x)) as [[-> _] | [-> Hle]]; lra.
Qed.

(** X5.  A sample louder than 2.5 times a positive threshold switches a
    keyer that is OFF to ON at that very sample, whatever its envelope, not
    negative, was: the envelope stays non-negative, the pending state becomes ON and
    the open segment starts at the time of the sample or, for a gap shorter
    than 15 ms after a committed interval, at the start of that interval. *)
Theorem processSample_loud (th lowerTh start rate origin : Q) (i : nat) (x : Q)
    (d : Detector) :
  signalState (acc d) = false ->
  0 < th ->
  0 <= env d ->
  2.5 * th < Qabs x ->
  acc (processSample th lowerTh start rate origin i x d) =
    transitionToOn (sampleTime start rate origin i) (acc d) /\
  signalState (acc (processSample th lowerTh start rate origin i x d)) = true /\
  0 <= env (processSample th lowerTh start rate origin i x d).
Proof.
  intros Hs Hth He Hx. unfold processSample. cbn [acc env].
  unfold detect. rewrite Hs. cbn [negb andb].
  rewrite (Qltb_true_of_lt _ _ (follow_loud th (env d) x Hth He Hx)).
  split; [reflexivity|]. split; [|now apply follow_nonneg].
  unfold transitionToOn.
  now destruct (Qltb (sampleTime start rate origin i - lastChangeTime (acc d)) 0.015 &&
                (0 <? List.length (signals (acc d)))%nat).
Qed.

Lemma processSample_loud_witness :
  let d := mkDetector 0 0 (mkAcc false [] 0) in
  signalState (acc d) = false /\
  0 < 0.31 /\
  0 <= env d /\
  2.5 * 0.31 < Qabs (-0.8) /\
  acc (processSample 0.31 0.186 0 48000 0 480 (-0.8) d) =
    transitionToOn (sampleTime 0 48000 0 480) (acc d) /\
  signalState (acc (processSample 0.31 0.186 0 48000 0 480 (-0.8) d)) = true /\
  0 <= env (processSample 0.31 0.186 0 48000 0 480 (-0.8) d).
Proof.
  cbv zeta.
  assert (H1 : signalState (acc (mkDetector 0 0 (mkAcc false [] 0))) = false)
    by reflexivity.
  assert (H2 : 0 < 0.31) by reflexivity.
  assert (H3 : 0 <= env (mkDetector 0 0 (mkAcc false [] 0))) by discriminate.
  assert (H4 : 2.5 * 0.31 < Qabs (-0.8)) by reflexivity.
  repeat (split; [assumption|]).
  exact (processSample_loud 0.31 0.186 0 48000 0 480 (-0.8)
           (mkDetector 0 0 (mkAcc false [] 0)) H1 H2 H3 H4).
Defined.

(** ** Reset and stop *)

Lemma sameCapture_step (k1 k2 : Keyer) (ev : SessionEvent) :
  sameCapture k1 k2 -> sameCapture (sessionStep k1 ev) (sessionStep k2 ev).
Proof.
  destruct k1, k2. unfold sameCapture. cbn.
  intros (-> & -> & -> & -> & -> & -> & ->).
  destruct ev as [e | th | now]; cbn -[sampleLoop]; repeat split; reflexivity.
Qed.

Lemma sameCapture_run (events : list SessionEvent) :
  forall k1 k2,
    sameCapture k1 k2 ->
    sameCapture (fold_left sessionStep events k1) (fold_left sessionStep events k2).
Proof.
  induction events as [|ev rest IH]; intros k1 k2 H; cbn [fold_left]; trivial.
  apply IH. now apply sameCapture_step.
Qed.

(** X6.  Resetting a keyer whose audio context exists is a fresh start for
    the capture: whatever blocks, threshold changes and resets follow, the
    committed list, the open segment, the pending state, the origin and the
    envelope are those of a session started at the reset time with the same
    threshold.  Nothing of what was captured before the reset remains. *)
Theorem resetSignals_fresh_start (now : Q) (k : Keyer) (events : list SessionEvent) :
  audioContextRef k = true ->
  sameCapture (fold_left sessionStep events (resetSignals now k))
              (session (thresholdRef k) now events).
Proof.
  intros Hc. unfold session. apply sameCapture_run.
  unfold sameCapture, resetSignals, startListening, useAudioKeyer. cbn.
  rewrite Hc. repeat split; reflexivity.
Qed.

Lemma resetSignals_fresh_start_witness :
  let k := session 0.31 0
             [AudioProcess (block 2 (repeat 0 300 ++ repeat 1 212))] in
  let events := [AudioProcess (block 9 [0; 1; 1])] in
  audioContextRef k = true /\
  sameCapture (fold_left sessionStep events (resetSignals 0.1 k))
              (session (thresholdRef k) 0.1 events).
Proof.
  cbv zeta. split; [reflexivity|].
  exact (resetSignals_fresh_start 0.1
           (session 0.31 0 [AudioProcess (block 2 (repeat 0 300 ++ repeat 1 212))])
           [AudioProcess (block 9 [0; 1; 1])] eq_refl).
Defined.

(** X7.  Stopping twice flushes once: a second [stopListening] changes
    nothing, whatever the clock reads, and so does an [updateUI] that comes
    after the stop. *)
Theorem stopListening_once (t1 t2 : Q) (k : Keyer) :
  stopListening t2 (stopListening t1 k) = stopListening t1 k /\
  fst (updateUI t2 (stopListening t1 k)) = stopListening t1 k.
Proof.
  assert (H : audioContextRef (stopListening t1 k) = false /\
              isListening (stopListening t1 k) = false /\
              smoothedEnvRef (stopListening t1 k) = 0).
  { unfold stopListening. destruct (audioContextRef k); [|now repeat split].
    destruct (Qltb 0.01 (Qmax 0 (t1 - startTimeRef k) - lastChangeTimeRef k));
      now repeat split. }
  destruct (stopListening t1 k) as [l c s o t st lv e th].
  cbn in H. destruct H as (-> & -> & ->). split; reflexivity.
Qed.

(** X8.  When [updateUI] stops the session, the committed list ends with
    the silence that caused it: an OFF interval that starts at the last
    change and lasts more than 5 s; the keyer no longer listens. *)
Theorem updateUI_stop_leaves_silence (now : Q) (k : Keyer) :
  snd (updateUI now k) = false ->
  isListening (fst (updateUI now k)) = false /\
  exists z,
    lastOf (signalsRef (fst (updateUI now k))) = Some z /\
    state z = off /\
    startTime z = lastChangeTimeRef k /\
    5 < duration z.
Proof.
  unfold updateUI.
  destruct (isListening k && negb (isSignalOnRef k) && audioContextRef k) eqn:E;
    [|discriminate].
  apply andb_true_iff in E. destruct E as [E Hc].
  apply andb_true_iff in E. destruct E as [_ Hoff].
  apply negb_true_iff in Hoff.
  destruct ((0 <? List.length (signalsRef k))%nat &&
            Qltb 5.0 (Qmax 0 (now - startTimeRef k) - lastChangeTimeRef k)) eqn:E2;
    [|discriminate].
  intros _. cbn [fst].
  apply andb_true_iff in E2. destruct E2 as [_ H5]. apply Qltb_lt in H5.
  unfold stopListening. rewrite Hc.
  rewrite (Qltb_true_of_lt 0.01 _); [|apply Qlt_trans with 5.0; [reflexivity|exact H5]].
  cbn [cleanup isListening signalsRef]. split; [reflexivity|].
  eexists. split; [apply lastOf_snoc|]. cbn [state startTime duration].
  rewrite Hoff. repeat split.
  apply Qle_lt_trans with 5.0; [discriminate|exact H5].
Qed.

Lemma updateUI_stop_leaves_silence_witness :
  let k := mkKeyer true true [mkInterval 0.5 0.25 on] false 0.75 10 0 0 0.31 in
  snd (updateUI 16 k) = false /\
  isListening (fst (updateUI 16 k)) = false /\
  exists z,
    lastOf (signalsRef (fst (updateUI 16 k))) = Some z /\
    state z = off /\
    startTime z = lastChangeTimeRef k /\
    5 < duration z.
Proof.
  cbv zeta.
  assert (H : snd (updateUI 16
                (mkKeyer true true [mkInterval 0.5 0.25 on] false 0.75 10 0 0 0.31))
              = false) by reflexivity.
  split; [exact H|].
  exact (updateUI_stop_leaves_silence 16
           (mkKeyer true true [mkInterval 0.5 0.25 on] false 0.75 10 0 0 0.31) H).
Defined.

(** X9.  [startListening] is a fresh start whatever the keyer went through
    before (a session that was stopped, or one still running): for every
    continuation the capture is that of a session started on a keyer just
    mounted with the same threshold, so no interval, no open segment and no
    envelope of the previous session is carried over. *)
Theorem startListening_fresh_start (now : Q) (k : Keyer) (events : list SessionEvent) :
  sameCapture (fold_left sessionStep events (startListening now k))
              (session (thresholdRef k) now events).
Proof.
  unfold session. apply sameCapture_run.
  unfold sameCapture, startListening, useAudioKeyer. cbn.
  destruct (audioContextRef k); repeat split; reflexivity.
Qed.

(** * More about the timing synthesizer *)

(** ** Characters *)

Lemma supportedHasCode_all (c : ascii) : supportedHasCode c = true.
Proof. destruct c as [[] [] [] [] [] [] [] []]; vm_compute; reflexivity. Qed.

Lemma cleanChar_supported (c : ascii) : supported (cleanChar c) = true.
Proof.
  unfold cleanChar. destruct (supported (toUpperCase c)) eqn:E; [exact E|reflexivity].
Qed.

Lemma cleanChar_upper (c : ascii) : cleanChar (toUpperCase c) = cleanChar c.
Proof. destruct c as [[] [] [] [] [] [] [] []]; vm_compute; reflexivity. Qed.

Lemma cleanChar_idempotent (c : ascii) : cleanChar (cleanChar c) = cleanChar c.
Proof. destruct c as [[] [] [] [] [] [] [] []]; vm_compute; reflexivity. Qed.

Lemma mapString_compose (f g : ascii -> ascii) (s : string) :
  mapString f (mapString g s) = mapString (fun c => f (g c)) s.
Proof. induction s as [|c s IH]; cbn; [reflexivity|now rewrite IH]. Qed.

Lemma mapString_ext (f g : ascii -> ascii) (s : string) :
  (forall c, f c = g c) -> mapString f s = mapString g s.
Proof. intros H. induction s as [|c s IH]; cbn; [reflexivity|now rewrite H, IH]. Qed.

Lemma cleanText_cleanChar (text : string) : cleanText text = mapString cleanChar text.
Proof. unfold cleanText. now rewrite mapString_compose. Qed.

Lemma In_mapString (f : ascii -> ascii) (s : string) (c : ascii) :
  In c (list_ascii_of_string (mapString f s)) -> exists c0, c = f c0.
Proof.
  induction s as [|c1 s IH]; cbn; [intros []|].
  intros [<- | H]; [now exists c1|now apply IH].
Qed.

(** A cleaned character is a space or has a proper code. *)
Lemma cleanChar_has_code (c0 : ascii) :
  cleanChar c0 = " "%char \/
  exists code, MORSE_MAP (cleanChar c0) = Some code /\ morseCode code = true.
Proof.
  assert (Hs := cleanChar_supported c0).
  assert (Hc := supportedHasCode_all (cleanChar c0)).
  unfold supportedHasCode in Hc. rewrite Hs in Hc. cbn [negb orb] in Hc.
  destruct (Ascii.eqb (cleanChar c0) " ") eqn:E.
  - left. now apply Ascii.eqb_eq.
  - right. cbn [orb] in Hc.
    destruct (MORSE_MAP (cleanChar c0)) as [code|]; [|discriminate].
    now exists code.
Qed.

Lemma cleanText_chars_have_codes (text : string) (c : ascii) :
  In c (list_ascii_of_string (cleanText text)) ->
  c = " "%char \/
  exists code, MORSE_MAP c = Some code /\ morseCode code = true.
Proof.
  rewrite cleanText_cleanChar. intros H.
  destruct (In_mapString _ _ _ H) as [c0 ->]. apply cleanChar_has_code.
Qed.

(** X10.  After cleaning, every character of a text is a space or has a code
    in [MORSE_MAP] that is not empty and holds only dots and dashes: the
    synthesizer never skips a character of a cleaned text for want of a
    code, and never times a symbol other than a dot or a dash. *)
Theorem cleanText_has_codes (text : string) (c : ascii) :
  In c (list_ascii_of_string (cleanText text)) ->
  c = " "%char \/
  exists code, MORSE_MAP c = Some code /\ morseCode code = true.
Proof.
  unfold cleanText. rewrite mapString_compose. fold cleanChar.
  induction text as [|c0 rest IH]; cbn [mapString list_ascii_of_string In].
  - intros [].
  - intros [<- | H]; [|exact (IH H)].
    destruct (cleanChar_has_code c0) as [E | (code & Hm & Hc)].
    + now left.
    + right. now exists code.
Qed.

Lemma cleanText_has_codes_witness :
  In "K"%char (list_ascii_of_string (cleanText "ok")) /\
  ("K"%char = " "%char \/
   exists code, MORSE_MAP "K" = Some code /\ morseCode code = true).
Proof.
  assert (H : In "K"%char (list_ascii_of_string (cleanText "ok")))
    by (right; left; reflexivity).
  split; [exact H|]. exact (cleanText_has_codes "ok" "K" H).
Defined.

(** ** Counting intervals *)

Lemma filter_isOn_snoc (l : list SignalInterval) (x : SignalInterval) :
  List.length (filter isOn (l ++ [x])) =
  (List.length (filter isOn l) + if isOn x then 1 else 0)%nat.
Proof.
  rewrite filter_app, length_app. cbn [filter]. now destruct (isOn x).
Qed.

Lemma emit_counts (d : Q) (st : SignalState) (n m : nat) (s : Synth) :
  counts n m s ->
  counts (S n) (m + match st with on => 1 | off => 0 end) (emit d st s).
Proof.
  intros [Hn Hm]. unfold counts, emit, push. cbn [intervals].
  rewrite length_app, filter_isOn_snoc, Hn, Hm. cbn [List.length].
  split; [lia|]. unfold isOn. cbn [state]. now destruct st.
Qed.

Lemma symbolLoop_counts (dotMs : Q) (code : string) :
  forall n m s,
    counts n m s ->
    counts (n + 2 * String.length code - match code with EmptyString => 0 | _ => 1 end)
           (m + String.length code) (symbolLoop dotMs code s).
Proof.
  induction code as [|symbol rest IH]; intros n m s Hs; cbn [symbolLoop String.length].
  - replace (n + 2 * 0 - 0)%nat with n by lia. now replace (m + 0)%nat with m by lia.
  - destruct rest as [|c rest'].
    + cbn [symbolLoop String.length].
      replace (n + 2 * 1 - 1)%nat with (S n) by lia.
      exact (emit_counts (if Ascii.eqb symbol "." then dotMs else 3 * dotMs)
               on n m s Hs).
    + specialize (IH (S (S n)) (m + 1 + 0)%nat _
                     (emit_counts dotMs off _ _ _
                        (emit_counts (if Ascii.eqb symbol "." then dotMs else 3 * dotMs)
                           on n m s Hs))).
      cbn [String.length] in IH |- *.
      replace (n + 2 * S (S (String.length rest')) - 1)%nat
        with (S (S n) + 2 * S (String.length rest') - 1)%nat by lia.
      replace (m + S (S (String.length rest')))%nat
        with (m + 1 + 0 + S (String.length rest'))%nat by lia.
      exact IH.
Qed.

Lemma addToLastDuration_counts (d : Q) (n m : nat) (l : list SignalInterval) :
  List.length l = n /\ List.length (filter isOn l) = m ->
  List.length (addToLastDuration d l) = n /\
  List.length (filter isOn (addToLastDuration d l)) = m.
Proof.
  destruct (snoc_cases l) as [-> | [l' [x ->]]]; [trivial|].
  rewrite addToLastDuration_snoc, !length_app, !filter_isOn_snoc. cbn [List.length].
  unfold isOn. cbn [state]. trivial.
Qed.

Lemma charStep_counts (dotMs : Q) (c : ascii) (n : nat) (s : Synth) :
  counts (2 * n) n s ->
  counts (2 * (n + symbolsOf (String c EmptyString)))
         (n + symbolsOf (String c EmptyString)) (charStep dotMs c s).
Proof.
  intros Hs. unfold charStep. cbn [symbolsOf].
  destruct (Ascii.eqb c " ").
  - replace (n + (0 + 0))%nat with n by lia.
    destruct (lastOf (intervals s)) as [l|]; trivial.
    destruct (isOff l); trivial.
    unfold counts. cbn [intervals]. now apply addToLastDuration_counts.
  - destruct (MORSE_MAP c) as [code|].
    + destruct code as [|symbol rest].
      * cbn [String.length]. now replace (n + (0 + 0))%nat with n by lia.
      * assert (H := emit_counts (3 * dotMs) off _ _ _
                        (symbolLoop_counts dotMs (String symbol rest) _ _ s Hs)).
        cbn [String.length] in H |- *.
        replace (2 * (n + (S (String.length rest) + 0)))%nat
          with (S (2 * n + 2 * S (String.length rest) - 1))%nat by lia.
        replace (n + (S (String.length rest) + 0))%nat
          with (n + S (String.length rest) + 0)%nat by lia.
        exact H.
    + now replace (n + (0 + 0))%nat with n by lia.
Qed.

Lemma charLoop_counts (dotMs : Q) (text : string) :
  forall n s,
    counts (2 * n) n s ->
    counts (2 * (n + symbolsOf text)) (n + symbolsOf text) (charLoop dotMs text s).
Proof.
  induction text as [|c rest IH]; intros n s Hs; cbn [charLoop].
  - cbn [symbolsOf]. now replace (n + 0)%nat with n by lia.
  - specialize (IH _ _ (charStep_counts dotMs c n s Hs)).
    cbn [symbolsOf] in IH |- *.
    match type of IH with
    | counts (2 * ?a) ?a _ =>
        match goal with
        | |- counts (2 * ?b) ?b _ => replace b with a by lia
        end
    end.
    exact IH.
Qed.

(** X11.  [textToIdealTiming] returns one ON interval for each dot and dash
    of the cleaned text and as many OFF intervals: spaces and characters
    replaced by spaces add no interval. *)
Theorem textToIdealTiming_counts (T : string) (w : Q) :
  List.length (filter isOn (textToIdealTiming T w)) = symbolsOf (cleanText T) /\
  List.length (textToIdealTiming T w) = (2 * symbolsOf (cleanText T))%nat.
Proof.
  destruct (charLoop_counts (dotSeconds w) (cleanText T) 0 (mkSynth [] 0))
    as [Hn Hm]; [split; reflexivity|].
  split; [exact Hm|exact Hn].
Qed.

(** ** Durations in units *)

Lemma dotSeconds_pos (w : Q) : 0 < w -> 0 < dotSeconds w.
Proof.
  intros Hw. unfold dotSeconds, calculateDotLength, Qdiv.
  apply Qmult_lt_0_compat; [|reflexivity].
  apply Qmult_lt_0_compat; [reflexivity|]. now apply Qinv_lt_0_compat.
Qed.

Section UnitTimed.

Variable u : Q.
Hypothesis u_pos : 0 < u.

Lemma emit_timed (d : Q) (st : SignalState) (s : Synth) :
  u <= d ->
  (st = on -> d == u \/ d == 3 * u) ->
  timed u s -> timed u (emit d st s).
Proof.
  intros Hd Hon [Hall Ht]. unfold timed, emit, push. cbn [intervals currentTime].
  split.
  - apply Forall_app. split; trivial. constructor; [|constructor].
    unfold unitTimed. cbn. repeat split; trivial.
  - apply Qle_trans with (0 + u); [rewrite Qplus_0_l; now apply Qlt_le_weak|].
    apply Qplus_le_compat; trivial.
Qed.

Lemma symbolLoop_timed (code : string) :
  forall s, timed u s -> timed u (symbolLoop u code s).
Proof.
  induction code as [|symbol rest IH]; intros s Hs; cbn [symbolLoop]; trivial.
  assert (H1 : timed u (emit (if Ascii.eqb symbol "." then u else 3 * u) on s)).
  { apply emit_timed; trivial.
    - destruct (Ascii.eqb symbol "."); [apply Qle_refl|].
      setoid_replace u with (1 * u) at 1 by ring.
      apply Qmult_le_compat_r; [discriminate|now apply Qlt_le_weak].
    - intros _. destruct (Ascii.eqb symbol "."); [left|right]; reflexivity. }
  apply IH. destruct rest; trivial.
  apply emit_timed; trivial; [apply Qle_refl|discriminate].
Qed.

Lemma charStep_timed (c : ascii) (s : Synth) : timed u s -> timed u (charStep u c s).
Proof.
  intros Hs. unfold charStep.
  assert (H4 : 0 <= 4 * u)
    by (apply Qmult_le_0_compat; [discriminate|now apply Qlt_le_weak]).
  destruct (Ascii.eqb c " ").
  - destruct (lastOf (intervals s)) as [l|] eqn:El; trivial.
    destruct (isOff l) eqn:Eoff; trivial.
    destruct Hs as [Hall Ht]. destruct (lastOf_inv _ _ El) as [l' E].
    unfold timed. cbn [intervals currentTime]. rewrite E in *.
    rewrite addToLastDuration_snoc. apply Forall_app in Hall.
    destruct Hall as [Hl' Hx]. inversion Hx as [|? ? (Hd & Hst & Hon) _]; subst.
    split.
    + apply Forall_app. split; trivial. constructor; [|constructor].
      unfold unitTimed. cbn [duration startTime state]. repeat split; trivial.
      * apply Qle_trans with (duration l + 0); [now rewrite Qplus_0_r|].
        apply Qplus_le_compat; [apply Qle_refl|exact H4].
      * intros Hs. unfold isOff in Eoff. rewrite Hs in Eoff. discriminate.
    + apply Qle_trans with (0 + 0); [discriminate|]. now apply Qplus_le_compat.
  - destruct (MORSE_MAP c) as [code|]; trivial.
    destruct code as [|symbol rest]; trivial.
    apply emit_timed; [| discriminate | now apply symbolLoop_timed].
    setoid_replace u with (1 * u) at 1 by ring.
    apply Qmult_le_compat_r; [discriminate|now apply Qlt_le_weak].
Qed.

Lemma charLoop_timed (text : string) :
  forall s, timed u s -> timed u (charLoop u text s).
Proof.
  induction text as [|c rest IH]; intros s Hs; cbn [charLoop]; trivial.
  apply IH. now apply charStep_timed.
Qed.

Lemma charLoop_unitTimed (text : string) :
  Forall (unitTimed u) (intervals (charLoop u text (mkSynth [] 0))).
Proof.
  apply (charLoop_timed text (mkSynth [] 0)).
  split; [constructor|discriminate].
Qed.

End UnitTimed.

(** X12.  At a positive speed every interval of [textToIdealTiming] lasts
    one unit (1200 / wpm / 1000 seconds) or more, so more than 0, and starts
    at 0 or later; every ON interval lasts exactly one unit or three. *)
Theorem textToIdealTiming_unit_timed (T : string) (w : Q) :
  0 < w ->
  0 < dotSeconds w /\
  Forall (unitTimed (dotSeconds w)) (textToIdealTiming T w).
Proof.
  intros Hw. split; [now apply dotSeconds_pos|].
  apply charLoop_unitTimed. now apply dotSeconds_pos.
Qed.

Lemma textToIdealTiming_unit_timed_witness :
  0 < 20 /\
  0 < dotSeconds 20 /\
  Forall (unitTimed (dotSeconds 20)) (textToIdealTiming "cq dx" 20).
Proof.
  assert (H : 0 < 20) by reflexivity.
  split; [exact H|]. exact (textToIdealTiming_unit_timed "cq dx" 20 H).
Defined.

(** ** Cleaning *)

(** X13.  The timing does not depend on the case of the letters, and
    cleaning a text beforehand changes nothing: an upper-cased text and a
    cleaned text synthesize to the same intervals as the text itself. *)
Theorem textToIdealTiming_case_insensitive (T : string) (w : Q) :
  textToIdealTiming (mapString toUpperCase T) w = textToIdealTiming T w /\
  textToIdealTiming (cleanText T) w = textToIdealTiming T w.
Proof.
  unfold textToIdealTiming. rewrite !cleanText_cleanChar, !mapString_compose.
  rewrite (mapString_ext _ cleanChar T cleanChar_upper).
  rewrite (mapString_ext _ cleanChar T cleanChar_idempotent).
  split; reflexivity.
Qed.

(** ** Texts without any mark *)

Lemma charStep_keeps_intervals (dotMs : Q) (c : ascii) (s : Synth) :
  intervals s <> [] -> intervals (charStep dotMs c s) <> [].
Proof.
  intros Hs. unfold charStep.
  destruct (Ascii.eqb c " ").
  - destruct (lastOf (intervals s)) as [l|] eqn:El; trivial.
    destruct (isOff l); trivial. cbn [intervals].
    destruct (lastOf_inv _ _ El) as [l' ->]. rewrite addToLastDuration_snoc.
    now destruct l'.
  - destruct (MORSE_MAP c) as [code|]; trivial.
    destruct code; trivial. unfold emit, push. cbn [intervals].
    now destruct (intervals (symbolLoop dotMs (String a code) s)).
Qed.

Lemma charLoop_keeps_intervals (dotMs : Q) (text : string) :
  forall s, intervals s <> [] -> intervals (charLoop dotMs text s) <> [].
Proof.
  induction text as [|c rest IH]; intros s Hs; cbn [charLoop]; trivial.
  apply IH. now apply charStep_keeps_intervals.
Qed.

Lemma charLoop_blank_iff (dotMs : Q) (text : string) :
  (forall c, In c (list_ascii_of_string text) ->
     c = " "%char \/ exists code, MORSE_MAP c = Some code /\ morseCode code = true) ->
  (intervals (charLoop dotMs text (mkSynth [] 0)) = [] <->
   forall c, In c (list_ascii_of_string text) -> c = " "%char).
Proof.
  induction text as [|c rest IH]; intros Hcodes; cbn [charLoop list_ascii_of_string].
  - split; [intros _ c []|reflexivity].
  - assert (Hrest : forall c0, In c0 (list_ascii_of_string rest) ->
              c0 = " "%char \/
              exists code, MORSE_MAP c0 = Some code /\ morseCode code = true)
      by (intros c0 H0; apply Hcodes; now right).
    destruct (Ascii.eqb c " ") eqn:E.
    + apply Ascii.eqb_eq in E. subst c.
      change (charStep dotMs " " (mkSynth [] 0)) with (mkSynth [] 0).
      rewrite (IH Hrest). split.
      * intros H c [<- | Hc]; [reflexivity|now apply H].
      * intros H c Hc. apply H. now right.
    + split.
      * intros H. exfalso. revert H. apply charLoop_keeps_intervals.
        unfold charStep. rewrite E.
        destruct (Hcodes c (or_introl eq_refl)) as [-> | [code [-> Hm]]];
          [discriminate|].
        destruct code; [discriminate|].
        unfold emit, push. cbn [intervals].
        now destruct (intervals (symbolLoop dotMs (String a code) (mkSynth [] 0))).
      * intros H. rewrite (H c (or_introl eq_refl)) in E. discriminate.
Qed.

(** X14.  [textToIdealTiming] returns the empty sequence exactly when the
    cleaned text holds nothing but spaces: an empty text, spaces, or only
    characters outside the supported set. *)
Theorem textToIdealTiming_empty_iff (T : string) (w : Q) :
  textToIdealTiming T w = [] <->
  forall c, In c (list_ascii_of_string (cleanText T)) -> c = " "%char.
Proof.
  unfold textToIdealTiming. apply charLoop_blank_iff.
  intros c. apply cleanText_chars_have_codes.
Qed.

(** ** The PARIS standard *)

(** X15.  At [w] words per minute the word PARIS with the space after it
    lasts 50 units, that is 60 / w seconds: [w] such words take a minute,
    as the comment of [calculateDotLength] states. *)
Theorem textToIdealTiming_PARIS (w : Q) :
  0 < w ->
  totalDuration (textToIdealTiming "PARIS " w) == 50 * dotSeconds w /\
  totalDuration (textToIdealTiming "PARIS " w) * w == 60.
Proof.
  intros Hw.
  assert (H50 : totalDuration (textToIdealTiming "PARIS " w) == 50 * dotSeconds w).
  { unfold textToIdealTiming. generalize (dotSeconds w) as u. intros u.
    cbv -[Qplus Qmult Qeq]. ring. }
  split; [exact H50|]. rewrite H50. unfold dotSeconds, calculateDotLength.
  field. intros E. rewrite E in Hw. discriminate.
Qed.

Lemma textToIdealTiming_PARIS_witness :
  0 < 15.7 /\
  totalDuration (textToIdealTiming "PARIS " 15.7) == 50 * dotSeconds 15.7 /\
  totalDuration (textToIdealTiming "PARIS " 15.7) * 15.7 == 60.
Proof.
  assert (H : 0 < 15.7) by reflexivity.
  split; [exact H|]. exact (textToIdealTiming_PARIS 15.7 H).
Defined.

(** ** Changing the speed *)

Section Scaling.

Variables c d1 d2 : Q.
Hypothesis d2_scaled : d2 == c * d1.

Lemma emit_scaled (e1 e2 : Q) (st : SignalState) (s1 s2 : Synth) :
  e2 == c * e1 ->
  scaledSynth c s1 s2 -> scaledSynth c (emit e1 st s1) (emit e2 st s2).
Proof.
  intros He [Hl Ht]. unfold scaledSynth, emit, push. cbn [intervals currentTime].
  split.
  - apply Forall2_app; trivial. constructor; [|constructor].
    unfold scaledBy. cbn. repeat split; trivial.
  - rewrite Ht, He. ring.
Qed.

Lemma symbolLoop_scaled (code : string) :
  forall s1 s2,
    scaledSynth c s1 s2 ->
    scaledSynth c (symbolLoop d1 code s1) (symbolLoop d2 code s2).
Proof.
  induction code as [|symbol rest IH]; intros s1 s2 Hs; cbn [symbolLoop]; trivial.
  assert (H1 : scaledSynth c
                 (emit (if Ascii.eqb symbol "." then d1 else 3 * d1) on s1)
                 (emit (if Ascii.eqb symbol "." then d2 else 3 * d2) on s2)).
  { apply emit_scaled; trivial.
    destruct (Ascii.eqb symbol "."); [exact d2_scaled|].
    rewrite d2_scaled. ring. }
  apply IH. destruct rest; trivial. now apply emit_scaled.
Qed.

Lemma scaled_last (l1 l2 : list SignalInterval) :
  Forall2 (scaledBy c) l1 l2 ->
  (l1 = [] /\ l2 = []) \/
  exists l1' a l2' b,
    l1 = l1' ++ [a] /\ l2 = l2' ++ [b] /\
    Forall2 (scaledBy c) l1' l2' /\ scaledBy c a b.
Proof.
  intros H. destruct (snoc_cases l1) as [-> | [l1' [a ->]]].
  - inversion H. now left.
  - right. apply Forall2_app_inv_l in H.
    destruct H as (l2' & lb & H1 & H2 & ->).
    inversion H2 as [|? b ? ? Hab Hnil]; subst. inversion Hnil; subst.
    now exists l1', a, l2', b.
Qed.

Lemma charStep_scaled (char : ascii) (s1 s2 : Synth) :
  scaledSynth c s1 s2 ->
  scaledSynth c (charStep d1 char s1) (charStep d2 char s2).
Proof.
  intros Hs. unfold charStep.
  destruct (Ascii.eqb char " ").
  - destruct s1 as [l1 t1], s2 as [l2 t2]. destruct Hs as [Hl Ht].
    cbn [intervals currentTime] in *.
    destruct (scaled_last _ _ Hl)
      as [[-> ->] | (l1' & a & l2' & b & -> & -> & Hl' & Hab)].
    + cbn [lastOf]. now split.
    + rewrite !lastOf_snoc. pose proof Hab as (Hst & Hstart & Hdur).
      unfold isOff. rewrite Hst. destruct (state a) eqn:Ea.
      * now split.
      * unfold scaledSynth. cbn [intervals currentTime].
        rewrite !addToLastDuration_snoc. split.
        -- apply Forall2_app; trivial. constructor; [|constructor].
           unfold scaledBy. cbn [state startTime duration].
           split; [congruence|]. split; [exact Hstart|].
           rewrite Hdur, d2_scaled. ring.
        -- rewrite Ht, d2_scaled. ring.
  - destruct (MORSE_MAP char) as [code|]; trivial.
    destruct code as [|symbol rest]; trivial.
    apply emit_scaled; [rewrite d2_scaled; ring|now apply symbolLoop_scaled].
Qed.

Lemma charLoop_scaled (text : string) :
  forall s1 s2,
    scaledSynth c s1 s2 ->
    scaledSynth c (charLoop d1 text s1) (charLoop d2 text s2).
Proof.
  induction text as [|char rest IH]; intros s1 s2 Hs; cbn [charLoop]; trivial.
  apply IH. now apply charStep_scaled.
Qed.

End Scaling.

(** X16.  Changing the speed rescales the ideal track and nothing else: for
    two positive speeds [w1] and [w2] the intervals of a text at [w2] are, one
    for one, those at [w1] with the same states and with start times and
    durations multiplied by [w1 / w2]. *)
Theorem textToIdealTiming_speed_scaling (T : string) (w1 w2 : Q) :
  0 < w1 -> 0 < w2 ->
  Forall2 (scaledBy (w1 / w2)) (textToIdealTiming T w1) (textToIdealTiming T w2).
Proof.
  intros H1 H2. unfold textToIdealTiming.
  apply (charLoop_scaled (w1 / w2) (dotSeconds w1) (dotSeconds w2)).
  - unfold dotSeconds, calculateDotLength. field. split; intros E.
    + rewrite E in H1. discriminate.
    + rewrite E in H2. discriminate.
  - split; [constructor|]. cbn. ring.
Qed.

Lemma textToIdealTiming_speed_scaling_witness :
  0 < 10 /\ 0 < 20 /\
  Forall2 (scaledBy (10 / 20)) (textToIdealTiming "sos" 10) (textToIdealTiming "sos" 20).
Proof.
  assert (H1 : 0 < 10) by reflexivity.
  assert (H2 : 0 < 20) by reflexivity.
  split; [exact H1|]. split; [exact H2|].
  exact (textToIdealTiming_speed_scaling "sos" 10 20 H1 H2).
Defined.

(** ** Marks and symbols *)

Lemma markDurations_snoc (l : list SignalInterval) (x : SignalInterval) :
  markDurations (l ++ [x]) =
  markDurations l ++ (if isOn x then [duration x] else []).
Proof.
  unfold markDurations. rewrite filter_app, map_app. cbn [filter].
  now destruct (isOn x).
Qed.

Lemma symbolLoop_marks (dotMs : Q) (code : string) :
  forall s,
    markDurations (intervals (symbolLoop dotMs code s)) =
    markDurations (intervals s) ++
    map (symbolDuration dotMs) (list_ascii_of_string code).
Proof.
  induction code as [|symbol rest IH]; intros s;
    cbn [symbolLoop list_ascii_of_string map].
  - now rewrite app_nil_r.
  - rewrite IH. destruct rest as [|c rest'].
    + unfold emit, push. cbn [intervals]. rewrite markDurations_snoc.
      cbn. now rewrite <- app_assoc.
    + unfold emit, push. cbn [intervals]. rewrite !markDurations_snoc.
      cbn. now rewrite app_nil_r, <- app_assoc.
Qed.

Lemma charStep_marks (dotMs : Q) (c : ascii) (s : Synth) :
  markDurations (intervals (charStep dotMs c s)) =
  markDurations (intervals s) ++
  map (symbolDuration dotMs) (symbolsList (String c EmptyString)).
Proof.
  unfold charStep. cbn [symbolsList]. rewrite app_nil_r.
  destruct (Ascii.eqb c " ").
  - cbn [map]. rewrite app_nil_r.
    destruct (lastOf (intervals s)) as [l|] eqn:El; trivial.
    destruct (isOff l) eqn:Eoff; trivial. cbn [intervals].
    destruct (lastOf_inv _ _ El) as [l' ->].
    rewrite addToLastDuration_snoc, !markDurations_snoc.
    unfold isOn, isOff in *. cbn [state]. now destruct (state l).
  - destruct (MORSE_MAP c) as [code|]; [|cbn [map]; now rewrite app_nil_r].
    destruct code as [|symbol rest]; [cbn [map]; now rewrite app_nil_r|].
    unfold emit, push. cbn [intervals]. rewrite markDurations_snoc.
    cbn [isOn state]. now rewrite app_nil_r, symbolLoop_marks.
Qed.

Lemma charLoop_marks (dotMs : Q) (text : string) :
  forall s,
    markDurations (intervals (charLoop dotMs text s)) =
    markDurations (intervals s) ++ map (symbolDuration dotMs) (symbolsList text).
Proof.
  induction text as [|c rest IH]; intros s; cbn [charLoop].
  - cbn. now rewrite app_nil_r.
  - rewrite IH, charStep_marks. cbn [symbolsList].
    now rewrite app_nil_r, <- app_assoc, <- map_app.
Qed.

Lemma textToIdealTiming_markDurations (T : string) (w : Q) :
  markDurations (textToIdealTiming T w) =
  map (symbolDuration (dotSeconds w)) (symbolsList (cleanText T)).
Proof. unfold textToIdealTiming. now rewrite charLoop_marks. Qed.

Lemma symbolsList_dots_dashes (T : string) :
  Forall (fun symbol => symbol = "."%char \/ symbol = "-"%char)
         (symbolsList (cleanText T)).
Proof.
  generalize (cleanText_chars_have_codes T).
  induction (cleanText T) as [|c rest IH]; intros Hc; cbn [symbolsList];
    [constructor|].
  apply Forall_app. split.
  - destruct (Hc c (or_introl eq_refl)) as [-> | (code & -> & Hm)]; [constructor|].
    destruct (Ascii.eqb c " "); [constructor|].
    unfold morseCode in Hm. apply andb_true_iff in Hm. destruct Hm as [_ Hm].
    rewrite forallb_forall in Hm. apply Forall_forall. intros x Hx.
    specialize (Hm x Hx). unfold dotOrDash in Hm. apply orb_true_iff in Hm.
    destruct Hm as [Hm | Hm]; apply Ascii.eqb_eq in Hm; auto.
  - apply IH. intros x Hx. apply Hc. now right.
Qed.

(** X17.  The ON intervals of [textToIdealTiming] are, in order, the dots
    and dashes of the codes of the cleaned text: one unit for each dot and
    three units for each dash. *)
Theorem textToIdealTiming_marks (T : string) (w : Q) :
  map duration (filter isOn (textToIdealTiming T w)) =
  map (symbolDuration (dotSeconds w)) (symbolsList (cleanText T)) /\
  Forall (fun symbol => symbol = "."%char \/ symbol = "-"%char)
         (symbolsList (cleanText T)).
Proof.
  split; [apply textToIdealTiming_markDurations|apply symbolsList_dots_dashes].
Qed.

(** * The tables of constants *)

Lemma decodesBack_all (c : ascii) : decodesBack c = true.
Proof. destruct c as [[] [] [] [] [] [] [] []]; vm_compute; reflexivity. Qed.

Lemma lookupCode_In (code : string) (c : ascii) (acc : list (string * ascii)) :
  lookupCode code acc = Some c -> In (code, c) acc.
Proof.
  induction acc as [|[k v] rest IH]; cbn [lookupCode]; [discriminate|].
  destruct (String.eqb k code) eqn:E.
  - apply String.eqb_eq in E. intros [= ->]. left. now subst.
  - intros H. right. now apply IH.
Qed.

Lemma REVERSE_MORSE_TABLE_encodes :
  forallb (fun e => encodes (snd e) (fst e)) REVERSE_MORSE_TABLE = true.
Proof. vm_compute. reflexivity. Qed.

(** X18.  [REVERSE_MORSE_MAP] is the inverse of [MORSE_MAP]: a character has
    a code in [MORSE_MAP] exactly when that code decodes to the character.
    So no two characters share a code, and nothing is lost when the reverse
    map is built. *)
Theorem REVERSE_MORSE_MAP_inverse (c : ascii) (code : string) :
  MORSE_MAP c = Some code <-> REVERSE_MORSE_MAP code = Some c.
Proof.
  split; intros H.
  - assert (Hc := decodesBack_all c). unfold decodesBack in Hc. rewrite H in Hc.
    destruct (REVERSE_MORSE_MAP code) as [c'|]; [|discriminate].
    apply Ascii.eqb_eq in Hc. now subst.
  - apply lookupCode_In in H.
    assert (Hall := REVERSE_MORSE_TABLE_encodes).
    rewrite forallb_forall in Hall. specialize (Hall _ H).
    cbn [fst snd] in Hall. unfold encodes in Hall.
    destruct (MORSE_MAP c) as [code'|]; [|discriminate].
    apply String.eqb_eq in Hall. now subst.
Qed.

(** * More about the go-ahead detector *)

Lemma notDashDotDash_all (c : ascii) : notDashDotDash c = true.
Proof. destruct c as [[] [] [] [] [] [] [] []]; vm_compute; reflexivity. Qed.

(** X19.  [detectCommand] recognizes nothing but K: for any other command
    character it returns [false] whatever the signals, because the pattern
    it tests is dash, dot, dash and only K has that code. *)
Theorem detectCommand_only_K (S : list SignalInterval) (w : Q) (commandChar : ascii) :
  commandChar <> "K"%char -> detectCommand S w commandChar = false.
Proof.
  intros HK. assert (H := notDashDotDash_all commandChar).
  unfold notDashDotDash, encodes in H.
  destruct (Ascii.eqb commandChar "K") eqn:E;
    [apply Ascii.eqb_eq in E; contradiction|].
  cbn [orb] in H. unfold detectCommand.
  destruct (List.length S <? 3)%nat; trivial.
  destruct (List.length (filter isOn S) <? 3)%nat; trivial.
  destruct (nth_error (sliceLast 3 (filter isOn S)) 0); trivial.
  destruct (nth_error (sliceLast 3 (filter isOn S)) 1); trivial.
  destruct (nth_error (sliceLast 3 (filter isOn S)) 2); trivial.
  destruct (MORSE_MAP commandChar) as [code|]; trivial.
  apply negb_true_iff in H. now rewrite H.
Qed.

Lemma detectCommand_only_K_witness :
  "R"%char <> "K"%char /\
  detectCommand (textToIdealTiming "r" 20) 20 "R" = false.
Proof.
  assert (H : "R"%char <> "K"%char) by discriminate.
  split; [exact H|]. exact (detectCommand_only_K (textToIdealTiming "r" 20) 20 "R" H).
Defined.

Lemma filter_isOn_idempotent (l : list SignalInterval) :
  filter isOn (filter isOn l) = filter isOn l.
Proof.
  induction l as [|x l IH]; [reflexivity|]. cbn [filter].
  destruct (isOn x) eqn:E; [|exact IH]. cbn [filter]. now rewrite E, IH.
Qed.

(** X20.  [detectCommand] looks at the ON intervals only: the OFF intervals
    of the list, so also the pause after the last mark, never change its
    answer. *)
Theorem detectCommand_ignores_gaps (S : list SignalInterval) (w : Q)
    (commandChar : ascii) :
  detectCommand S w commandChar = detectCommand (filter isOn S) w commandChar.
Proof.
  unfold detectCommand. rewrite filter_isOn_idempotent.
  assert (Hlen : (List.length (filter isOn S) <= List.length S)%nat)
    by apply filter_length_le.
  destruct (List.length S <? 3)%nat eqn:E1.
  - apply Nat.ltb_lt in E1.
    assert (E2 : (List.length (filter isOn S) <? 3)%nat = true)
      by (apply Nat.ltb_lt; lia).
    now rewrite E2.
  - now destruct (List.length (filter isOn S) <? 3)%nat.
Qed.

(** ** The detector on the ideal keying *)

Lemma last_three_of {A : Type} (l : list A) :
  (3 <= List.length l)%nat -> exists earlier a b c, l = earlier ++ [a; b; c].
Proof.
  intros H. exists (firstn (List.length l - 3) l).
  assert (L : List.length (skipn (List.length l - 3) l) = 3%nat)
    by (rewrite length_skipn; lia).
  assert (E := firstn_skipn (List.length l - 3) l).
  destruct (skipn (List.length l - 3) l) as [|a [|b [|c [|x t]]]];
    try discriminate.
  now exists a, b, c.
Qed.

Lemma app_three_inj {A : Type} (l1 l2 : list A) (a b c x y z : A) :
  l1 ++ [a; b; c] = l2 ++ [x; y; z] -> a = x /\ b = y /\ c = z.
Proof.
  intros H.
  change (l1 ++ [a; b; c]) with (l1 ++ [a; b] ++ [c]) in H.
  change (l2 ++ [x; y; z]) with (l2 ++ [x; y] ++ [z]) in H.
  rewrite !app_assoc in H. apply app_inj_tail in H. destruct H as [H ->].
  change (l1 ++ [a; b]) with (l1 ++ [a] ++ [b]) in H.
  change (l2 ++ [x; y]) with (l2 ++ [x] ++ [y]) in H.
  rewrite !app_assoc in H. apply app_inj_tail in H. destruct H as [H ->].
  apply app_inj_tail in H. destruct H as [_ ->]. now repeat split.
Qed.

Lemma dash_is_long (d : Q) (x : ascii) :
  0 < d -> (Qltb (d * 2.0) (symbolDuration d x) = true <-> x <> "."%char).
Proof.
  intros Hd. unfold symbolDuration. rewrite Qltb_lt.
  destruct (Ascii.eqb x ".") eqn:E.
  - apply Ascii.eqb_eq in E. split; [intros H; lra|congruence].
  - apply Ascii.eqb_neq in E. split; [trivial|intros _; lra].
Qed.

Lemma dot_is_short (d : Q) (x : ascii) :
  0 < d -> (Qltb (symbolDuration d x) (d * 2.0) = true <-> x = "."%char).
Proof.
  intros Hd. unfold symbolDuration. rewrite Qltb_lt.
  destruct (Ascii.eqb x ".") eqn:E.
  - apply Ascii.eqb_eq in E. split; [trivial|intros _; lra].
  - apply Ascii.eqb_neq in E. split; [intros H; lra|congruence].
Qed.

(** The last three marks of a sequence and the last three symbols of the
    text it was synthesized from. *)
Lemma last_marks_last_symbols (l : list SignalInterval) (syms : list ascii) (d : Q)
    (earlier : list SignalInterval) (a b c : SignalInterval)
    (pre : list ascii) (x y z : ascii) :
  markDurations l = map (symbolDuration d) syms ->
  filter isOn l = earlier ++ [a; b; c] ->
  syms = pre ++ [x; y; z] ->
  duration a = symbolDuration d x /\
  duration b = symbolDuration d y /\
  duration c = symbolDuration d z.
Proof.
  unfold markDurations. intros H E E'. rewrite E, E', !map_app in H.
  cbn [map] in H.
  now apply app_three_inj in H.
Qed.

(** X21.  On the ideal keying of a text at a positive speed,
    [detectCommand] (for K) answers [true] exactly when the dots and dashes
    of the text end with dash, dot, dash: after a final K, but also after
    NT or TA, whatever spaces follow. *)
Theorem detectCommand_on_ideal_keying (T : string) (w : Q) :
  0 < w ->
  (detectCommandK (textToIdealTiming T w) w = true <->
   exists pre, symbolsList (cleanText T) = pre ++ ["-"; "."; "-"]%char).
Proof.
  intros Hw. assert (Hd := dotSeconds_pos w Hw).
  assert (Hm := textToIdealTiming_markDurations T w).
  assert (Hlen : List.length (filter isOn (textToIdealTiming T w)) =
                 List.length (symbolsList (cleanText T))).
  { apply (f_equal (@List.length Q)) in Hm. unfold markDurations in Hm.
    now rewrite !length_map in Hm. }
  split.
  - intros H.
    assert (L : (3 <= List.length (filter isOn (textToIdealTiming T w)))%nat).
    { unfold detectCommandK, detectCommand in H.
      destruct (List.length (textToIdealTiming T w) <? 3)%nat; [discriminate|].
      destruct (List.length (filter isOn (textToIdealTiming T w)) <? 3)%nat eqn:E3;
        [discriminate|].
      now apply Nat.ltb_ge in E3. }
    destruct (last_three_of _ L) as (earlier & a & b & c & E).
    assert (L' : (3 <= List.length (symbolsList (cleanText T)))%nat) by lia.
    destruct (last_three_of _ L') as (pre & x & y & z & E').
    destruct (last_marks_last_symbols _ _ _ _ _ _ _ _ _ _ _ Hm E E')
      as (Ha & Hb & Hc).
    rewrite (detectCommandK_last_three _ earlier a b c w E) in H.
    fold (dotSeconds w) in H. rewrite Ha, Hb, Hc in H.
    apply andb_true_iff in H. destruct H as [H H3].
    apply andb_true_iff in H. destruct H as [H1 H2].
    apply (dash_is_long _ _ Hd) in H1, H3. apply (dot_is_short _ _ Hd) in H2.
    assert (Hsym := symbolsList_dots_dashes T).
    rewrite Forall_forall in Hsym.
    assert (Hx : x = "."%char \/ x = "-"%char)
      by (apply Hsym; rewrite E'; apply in_or_app; right; left; reflexivity).
    assert (Hz : z = "."%char \/ z = "-"%char)
      by (apply Hsym; rewrite E'; apply in_or_app; right; right; right; left;
          reflexivity).
    exists pre. rewrite E', H2.
    destruct Hx as [Hx | ->]; [contradiction|].
    destruct Hz as [Hz | ->]; [contradiction|]. reflexivity.
  - intros [pre E'].
    assert (L : (3 <= List.length (filter isOn (textToIdealTiming T w)))%nat).
    { rewrite Hlen, E', length_app. cbn. lia. }
    destruct (last_three_of _ L) as (earlier & a & b & c & E).
    destruct (last_marks_last_symbols _ _ _ _ _ _ _ _ _ _ _ Hm E E')
      as (Ha & Hb & Hc).
    rewrite (detectCommandK_last_three _ earlier a b c w E).
    fold (dotSeconds w). rewrite Ha, Hb, Hc.
    rewrite (proj2 (dash_is_long (dotSeconds w) "-" Hd)) by discriminate.
    rewrite (proj2 (dot_is_short (dotSeconds w) "." Hd)) by reflexivity.
    reflexivity.
Qed.

Lemma detectCommand_on_ideal_keying_witness :
  0 < 20 /\
  (detectCommandK (textToIdealTiming "ant " 20) 20 = true <->
   exists pre, symbolsList (cleanText "ant ") = pre ++ ["-"; "."; "-"]%char).
Proof.
  assert (H : 0 < 20) by reflexivity.
  split; [exact H|]. exact (detectCommand_on_ideal_keying "ant " 20 H).
Defined.

Example detectCommand_fires_on_NT :
  detectCommandK (textToIdealTiming "ant " 20) 20 = true /\
  detectCommandK (textToIdealTiming "ok" 20) 20 = true /\
  detectCommandK (textToIdealTiming "kn" 20) 20 = false.
Proof. vm_compute. repeat split. Qed.

(** * More about the timeline *)

(** ** What is displayed *)

(** X22.  [displaySignals] shows the committed intervals, all of them and in
    order, followed by at most one interval for the signal in progress, and
    that one has a positive duration.  When the signal in progress continues
    the committed list (other state than the last interval, start at its
    end), the displayed list keeps the sequence invariant of the committed
    one. *)
Theorem displaySignals_appends_pending (userSignals : list SignalInterval)
    (activeSignal : option ActiveSignal) (listening : bool) :
  (displaySignals userSignals activeSignal listening = userSignals \/
   exists a,
     activeSignal = Some a /\ listening = true /\
     0 < activeCurrentTime a - activeStartTime a /\
     displaySignals userSignals activeSignal listening =
     userSignals ++
     [mkInterval (activeStartTime a) (activeCurrentTime a - activeStartTime a)
                 (activeState a)]) /\
  (sequenceInvariant userSignals ->
   (forall a z,
       activeSignal = Some a -> lastOf userSignals = Some z ->
       state z <> activeState a /\
       activeStartTime a == startTime z + duration z) ->
   sequenceInvariant (displaySignals userSignals activeSignal listening)).
Proof.
  unfold displaySignals. destruct activeSignal as [a|].
  - destruct listening; cbn [negb].
    + destruct (Qle_bool (activeCurrentTime a - activeStartTime a) 0) eqn:E.
      * split; [now left|trivial].
      * assert (Hpos : 0 < activeCurrentTime a - activeStartTime a).
        { apply Qnot_le_lt. intros H. apply Qle_bool_iff in H. congruence. }
        split.
        -- right. exists a. repeat split; trivial.
        -- intros Hseq Hcont. apply sequenceInvariant_snoc. split; trivial.
           intros z Hz. destruct (Hcont a z eq_refl Hz) as [Hs Ht].
           split; cbn; trivial.
    + split; [now left|trivial].
  - split; [now left|trivial].
Qed.

(** ** Alignment of the first tones *)

Lemma find_isOn_shifted (shift : Q) (l : list SignalInterval) :
  find isOn (map (shifted shift) l) = option_map (shifted shift) (find isOn l).
Proof.
  induction l as [|x l IH]; [reflexivity|]. cbn [map find].
  change (isOn (shifted shift x)) with (isOn x).
  now destruct (isOn x).
Qed.

Lemma sequenceInvariant_shifted (shift : Q) (l : list SignalInterval) :
  sequenceInvariant l -> sequenceInvariant (map (shifted shift) l).
Proof.
  intros H i a b Ha Hb. rewrite nth_error_map in Ha, Hb.
  destruct (nth_error l i) as [a0|] eqn:Ea; [|discriminate].
  destruct (nth_error l (S i)) as [b0|] eqn:Eb; [|discriminate].
  injection Ha as <-. injection Hb as <-.
  destruct (H i a0 b0 Ea Eb) as [Hs Ht]. split; cbn; trivial.
  rewrite Ht. ring.
Qed.

(** X23.  In exact rational arithmetic (the rounding of the sums aside),
    alignment keeps the sequence invariant of the displayed list, and when
    both sides have an ON interval it makes the first tones coincide: the
    first ON interval of the aligned list is the displayed one moved to
    start where the first ideal ON interval starts. *)
Theorem alignedUserSignals_first_tones_coincide
    (ideal displayed : list SignalInterval) :
  (sequenceInvariant displayed ->
   sequenceInvariant (alignedUserSignals ideal displayed)) /\
  (forall firstIdeal firstUser,
      find isOn ideal = Some firstIdeal ->
      find isOn displayed = Some firstUser ->
      exists firstAligned,
        find isOn (alignedUserSignals ideal displayed) = Some firstAligned /\
        startTime firstAligned == startTime firstIdeal /\
        duration firstAligned = duration firstUser).
Proof.
  unfold alignedUserSignals. split.
  - intros H. destruct (find isOn ideal); [|apply sequenceInvariant_nil].
    destruct (find isOn displayed); [|apply sequenceInvariant_nil].
    now apply sequenceInvariant_shifted.
  - intros fi fu Hi Hu. rewrite Hi, Hu, find_isOn_shifted, Hu. cbn [option_map].
    eexists. split; [reflexivity|]. cbn. split; [ring|reflexivity].
Qed.

(** ** Rows *)

Lemma SECONDS_PER_ROW_pos : 0 < SECONDS_PER_ROW.
Proof. reflexivity. Qed.

(** X24.  The chart has at least one row, enough rows to reach the end of
    both tracks (the last row ends at or after the end of the last interval
    of each), and no row beyond: the last row starts before the latest of
    these ends and 14 s. *)
Theorem rowCount_covers (ideal aligned : list SignalInterval) :
  (1 <= rowCount ideal aligned)%Z /\
  getLastTime ideal <= rowEndTime (rowCount ideal aligned - 1) /\
  getLastTime aligned <= rowEndTime (rowCount ideal aligned - 1) /\
  rowStartTime (rowCount ideal aligned - 1) < maxTime ideal aligned.
Proof.
  unfold rowCount, rowEndTime, rowStartTime.
  set (m := maxTime ideal aligned).
  assert (Hm : SECONDS_PER_ROW <= m) by apply Q.le_max_r.
  assert (Hi : getLastTime ideal <= m).
  { apply Qle_trans with (Qmax (getLastTime ideal) (getLastTime aligned));
      apply Q.le_max_l. }
  assert (Ha : getLastTime aligned <= m).
  { apply Qle_trans with (Qmax (getLastTime ideal) (getLastTime aligned));
      [apply Q.le_max_r|apply Q.le_max_l]. }
  assert (Hup : m <= inject_Z (Qceiling (m / SECONDS_PER_ROW)) * SECONDS_PER_ROW).
  { setoid_replace m with (m / SECONDS_PER_ROW * SECONDS_PER_ROW) at 1
      by (field; discriminate).
    apply Qmult_le_compat_r; [apply Qle_ceiling|discriminate]. }
  assert (Hlow : inject_Z (Qceiling (m / SECONDS_PER_ROW) - 1) * SECONDS_PER_ROW < m).
  { setoid_replace m with (m / SECONDS_PER_ROW * SECONDS_PER_ROW) at 2
      by (field; discriminate).
    apply Qmult_lt_compat_r; [reflexivity|].
    apply Qceiling_lt. }
  assert (Hend : inject_Z (Qceiling (m / SECONDS_PER_ROW) - 1) + 1
                 == inject_Z (Qceiling (m / SECONDS_PER_ROW))).
  { unfold Z.sub. rewrite inject_Z_plus. cbn. ring. }
  split; [|split; [|split]].
  - assert (H1 : 1 <= m / SECONDS_PER_ROW).
    { apply Qle_shift_div_l; [reflexivity|]. now rewrite Qmult_1_l. }
    assert (H2 := Qle_ceiling (m / SECONDS_PER_ROW)).
    assert (H3 : inject_Z 0 < inject_Z (Qceiling (m / SECONDS_PER_ROW))).
    { apply Qlt_le_trans with (m / SECONDS_PER_ROW); trivial.
      apply Qlt_le_trans with 1; [reflexivity|exact H1]. }
    rewrite <- Zlt_Qlt in H3. lia.
  - rewrite Hend. now apply Qle_trans with m.
  - rewrite Hend. now apply Qle_trans with m.
  - exact Hlow.
Qed.

Lemma visibleSignals_In (rowStart rowEnd : Q) (signals : list SignalInterval)
    (s : SignalInterval) :
  In s (visibleSignals rowStart rowEnd signals) <->
  In s signals /\ state s = on /\
  startTime s < rowEnd /\ rowStart < startTime s + duration s.
Proof.
  unfold visibleSignals. rewrite filter_In. cbv zeta.
  rewrite !andb_true_iff, !Qltb_lt. unfold isOn.
  destruct (state s); split; intros H; repeat split; try tauto;
    try (destruct H as [_ [[H _] _]]; discriminate);
    destruct H as [_ [H _]]; discriminate.
Qed.

Section RowScale.

Variables innerWidth rowStart rowEnd : Q.
Hypothesis innerWidth_pos : 0 < innerWidth.
Hypothesis row_pos : rowStart < rowEnd.

Lemma xScale_linear (t : Q) :
  xScale rowStart rowEnd innerWidth t ==
  (t - rowStart) * (innerWidth / (rowEnd - rowStart)).
Proof.
  unfold xScale. field. intros H.
  assert (H' : rowStart == rowEnd) by lra. rewrite H' in row_pos.
  exact (Qlt_irrefl _ row_pos).
Qed.

Lemma xScale_slope_pos : 0 < innerWidth / (rowEnd - rowStart).
Proof. apply Qlt_shift_div_l; lra. Qed.

Lemma xScale_le (t1 t2 : Q) :
  t1 <= t2 ->
  xScale rowStart rowEnd innerWidth t1 <= xScale rowStart rowEnd innerWidth t2.
Proof.
  intros H. rewrite !xScale_linear.
  apply Qmult_le_compat_r; [lra|]. apply Qlt_le_weak, xScale_slope_pos.
Qed.

Lemma xScale_lt (t1 t2 : Q) :
  t1 < t2 ->
  xScale rowStart rowEnd innerWidth t1 < xScale rowStart rowEnd innerWidth t2.
Proof.
  intros H. rewrite !xScale_linear.
  apply Qmult_lt_compat_r; [apply xScale_slope_pos|lra].
Qed.

Lemma xScale_rowStart : xScale rowStart rowEnd innerWidth rowStart == 0.
Proof. rewrite xScale_linear. ring. Qed.

Lemma xScale_rowEnd : xScale rowStart rowEnd innerWidth rowEnd == innerWidth.
Proof.
  unfold xScale. field. intros H.
  assert (H' : rowStart == rowEnd) by lra. rewrite H' in row_pos.
  exact (Qlt_irrefl _ row_pos).
Qed.

End RowScale.

(** X25.  In a row of positive length drawn on a positive width,
    [drawSignals] draws one rectangle for each ON interval that overlaps
    the row and none for any other interval.  The rectangle starts within
    the row, at the scaled time where the interval enters it, and it is
    never narrower than 2 pixels: its right edge is the scaled end of the
    interval clipped to the row, or 2 pixels after its left edge if that is
    further, so it passes the right edge of the row by less than 2
    pixels. *)
Theorem drawSignals_rectangles (innerWidth rowStart rowEnd : Q)
    (signals : list SignalInterval) :
  0 < innerWidth ->
  rowStart < rowEnd ->
  let scale := xScale rowStart rowEnd innerWidth in
  let rects := drawSignals innerWidth rowStart rowEnd signals in
  List.length rects = List.length (visibleSignals rowStart rowEnd signals) /\
  (forall s,
      In s signals -> state s = on ->
      startTime s < rowEnd -> rowStart < startTime s + duration s ->
      exists r, In r rects /\ rectX r = scale (Qmax rowStart (startTime s))) /\
  (forall r,
      In r rects ->
      exists s,
        In s signals /\ state s = on /\
        startTime s < rowEnd /\ rowStart < startTime s + duration s /\
        rectX r = scale (Qmax rowStart (startTime s)) /\
        0 <= rectX r /\ rectX r < innerWidth /\
        2 <= rectWidth r /\
        rectX r + rectWidth r ==
          Qmax (rectX r + 2) (scale (Qmin rowEnd (startTime s + duration s))) /\
        rectX r + rectWidth r < innerWidth + 2).
Proof.
  intros Hw Hrow scale rects. split; [|split].
  - unfold rects, drawSignals. apply length_map.
  - intros s Hin Hon H1 H2. eexists. split.
    + unfold rects, drawSignals. apply in_map_iff. exists s.
      split; [reflexivity|]. apply visibleSignals_In. now repeat split.
    + reflexivity.
  - intros r Hr. unfold rects, drawSignals in Hr. apply in_map_iff in Hr.
    destruct Hr as (s & <- & Hs). apply visibleSignals_In in Hs.
    destruct Hs as (Hin & Hon & H1 & H2). exists s. cbn [rectX rectWidth].
    fold scale.
    set (start := Qmax rowStart (startTime s)).
    set (end_ := Qmin rowEnd (startTime s + duration s)).
    assert (Hs1 : rowStart <= start) by apply Q.le_max_l.
    assert (Hs2 : start < rowEnd) by (apply Q.max_lub_lt; trivial).
    assert (He : end_ <= rowEnd) by apply Q.le_min_l.
    assert (Xs : scale rowStart == 0)
      by exact (xScale_rowStart innerWidth rowStart rowEnd Hrow).
    assert (Xe : scale rowEnd == innerWidth)
      by exact (xScale_rowEnd innerWidth rowStart rowEnd Hrow).
    assert (X0 : scale rowStart <= scale start)
      by exact (xScale_le innerWidth rowStart rowEnd Hw Hrow _ _ Hs1).
    assert (X1 : scale start < scale rowEnd)
      by exact (xScale_lt innerWidth rowStart rowEnd Hw Hrow _ _ Hs2).
    assert (X2 : scale end_ <= scale rowEnd)
      by exact (xScale_le innerWidth rowStart rowEnd Hw Hrow _ _ He).
    clearbody scale start end_.
    assert (Hsum : scale start + Qmax 2 (scale end_ - scale start) ==
                   Qmax (scale start + 2) (scale end_)).
    { destruct (Q.max_spec 2 (scale end_ - scale start)) as [[L ->] | [L ->]];
        destruct (Q.max_spec (scale start + 2) (scale end_)) as [[L' ->] | [L' ->]];
        lra. }
    repeat split; trivial; try lra.
    + apply Q.le_max_l.
    + rewrite Hsum. apply Q.max_lub_lt; lra.
Qed.

Lemma drawSignals_rectangles_witness :
  let signals := [mkInterval 1 0.5 on; mkInterval 1.5 12.49 off;
                  mkInterval 13.99 0.5 on] in
  let scale := xScale 0 14 760 in
  let rects := drawSignals 760 0 14 signals in
  0 < 760 /\ 0 < 14 /\
  List.length rects = List.length (visibleSignals 0 14 signals) /\
  (forall s,
      In s signals -> state s = on ->
      startTime s < 14 -> 0 < startTime s + duration s ->
      exists r, In r rects /\ rectX r = scale (Qmax 0 (startTime s))) /\
  (forall r,
      In r rects ->
      exists s,
        In s signals /\ state s = on /\
        startTime s < 14 /\ 0 < startTime s + duration s /\
        rectX r = scale (Qmax 0 (startTime s)) /\
        0 <= rectX r /\ rectX r < 760 /\
        2 <= rectWidth r /\
        rectX r + rectWidth r ==
          Qmax (rectX r + 2) (scale (Qmin 14 (startTime s + duration s))) /\
        rectX r + rectWidth r < 760 + 2).
Proof.
  cbv zeta. split; [reflexivity|]. split; [reflexivity|].
  exact (drawSignals_rectangles 760 0 14
           [mkInterval 1 0.5 on; mkInterval 1.5 12.49 off; mkInterval 13.99 0.5 on]
           eq_refl eq_refl).
Defined.

(** A tone that starts 10 ms before the end of the first row, on a chart
    760 pixels wide: its rectangle in that row is 2 pixels wide and ends
    1.46 pixels after the right edge of the row. *)
Example drawSignals_past_the_row :
  map (fun r => (Qred (rectX r), Qred (rectWidth r), Qred (rectX r + rectWidth r)))
      (drawSignals 760 0 14 [mkInterval 13.99 0.5 on]) =
  [(26581 # 35, 2, 26651 # 35)].
Proof. vm_compute. reflexivity. Qed.

(** * The application component *)

(** ** Speed *)

Lemma tenths_le (a b : Z) : (a <= b)%Z -> inject_Z a / 10 <= inject_Z b / 10.
Proof.
  intros H. unfold Qdiv. apply Qmult_le_compat_r; [|discriminate].
  now rewrite <- Zle_Qle.
Qed.

Lemma Qmin_tenths (a b : Z) :
  Qmin (inject_Z a / 10) (inject_Z b / 10) == inject_Z (Z.min a b) / 10.
Proof.
  destruct (Z.min_spec a b) as [[H ->] | [H ->]].
  - apply Q.min_l, tenths_le. lia.
  - apply Q.min_r, tenths_le. lia.
Qed.

Lemma Qmax_tenths (a b : Z) :
  Qmax (inject_Z a / 10) (inject_Z b / 10) == inject_Z (Z.max a b) / 10.
Proof.
  destruct (Z.max_spec a b) as [[H ->] | [H ->]].
  - apply Q.max_r, tenths_le. lia.
  - apply Q.max_l, tenths_le. lia.
Qed.

Lemma toFixed1_tenths (x : Q) : exists n : Z, toFixed1 x = inject_Z n / 10 \/
                                             toFixed1 x = - (inject_Z n / 10).
Proof.
  unfold toFixed1. destruct (Qltb x 0); eexists; [right|left]; reflexivity.
Qed.

Lemma updateWpm_clamped_tenths (n : Z) :
  Qmax 5 (Qmin 40 (inject_Z n / 10)) == inject_Z (Z.max 50 (Z.min 400 n)) / 10.
Proof.
  setoid_replace 5 with (inject_Z 50 / 10) by reflexivity.
  setoid_replace 40 with (inject_Z 400 / 10) by reflexivity.
  now rewrite Qmin_tenths, Qmax_tenths.
Qed.

Lemma Qfloor_half (m : Z) : Qfloor (10 * (inject_Z m / 10) + (1 # 2)) = m.
Proof.
  assert (E : 10 * (inject_Z m / 10) + (1 # 2) == inject_Z (2 * m + 1) / inject_Z 2).
  { rewrite inject_Z_plus, inject_Z_mult. field. }
  rewrite E, <- Zdiv_Qdiv. symmetry. apply Z.div_unique with 1%Z; lia.
Qed.

(** X26.  [updateWpm] always sets a speed between 5 and 40 that is a
    multiple of 0.1, and leaves such a speed as it is. *)
Theorem updateWpm_grid (newWpm : Q) :
  (exists n : Z, (50 <= n <= 400)%Z /\ updateWpm newWpm == inject_Z n / 10) /\
  5 <= updateWpm newWpm <= 40 /\
  (forall m : Z, (50 <= m <= 400)%Z -> newWpm = inject_Z m / 10 ->
                 updateWpm newWpm == newWpm).
Proof.
  assert (Grid : exists n : Z, (50 <= n <= 400)%Z /\
                               updateWpm newWpm == inject_Z n / 10).
  { unfold updateWpm. destruct (toFixed1_tenths newWpm) as [n [-> | ->]].
    - exists (Z.max 50 (Z.min 400 n)). split; [lia|apply updateWpm_clamped_tenths].
    - exists (Z.max 50 (Z.min 400 (- n))). split; [lia|].
      rewrite <- updateWpm_clamped_tenths.
      setoid_replace (- (inject_Z n / 10)) with (inject_Z (- n) / 10); [reflexivity|].
      rewrite inject_Z_opp. field. }
  split; [exact Grid|]. split.
  - destruct Grid as (n & Hn & ->). split.
    + setoid_replace 5 with (inject_Z 50 / 10) by reflexivity. apply tenths_le. lia.
    + setoid_replace 40 with (inject_Z 400 / 10) by reflexivity. apply tenths_le. lia.
  - intros m Hm ->. unfold updateWpm, toFixed1.
    assert (Hpos : 0 <= inject_Z m / 10).
    { setoid_replace 0 with (inject_Z 0 / 10) by reflexivity. apply tenths_le. lia. }
    rewrite (Qltb_false_of_le _ _ Hpos), Qfloor_half, updateWpm_clamped_tenths.
    replace (Z.max 50 (Z.min 400 m)) with m by lia. reflexivity.
Qed.

(** ** Lines *)

Lemma parseLines_not_blank (text l : string) :
  In l (parseLines text) -> isBlank l = false.
Proof.
  unfold parseLines. rewrite filter_In. intros [_ H]. now apply negb_true_iff.
Qed.

(** The index is that of a line, or 0 when there is none. *)
Lemma lessonStep_index (l : Lesson) (ev : LessonEvent) :
  (currentLineIndex l < List.length (lines l) \/ currentLineIndex l = 0)%nat ->
  (forall x, In x (lines l) -> isBlank x = false) ->
  (currentLineIndex (lessonStep l ev) < List.length (lines (lessonStep l ev)) \/
   currentLineIndex (lessonStep l ev) = 0)%nat /\
  (forall x, In x (lines (lessonStep l ev)) -> isBlank x = false).
Proof.
  intros Hi Hb. destruct ev as [text | |]; cbn [lessonStep].
  - unfold setInputText. cbn [lines currentLineIndex]. split.
    + destruct (List.length (parseLines text) <=? currentLineIndex l)%nat eqn:E;
        [now right|]. left. now apply Nat.leb_gt.
    + intros x. apply parseLines_not_blank.
  - unfold handlePrevLine.
    destruct (0 <? currentLineIndex l)%nat eqn:E; [|now split].
    cbn [lines currentLineIndex]. split; [|exact Hb].
    apply Nat.ltb_lt in E. lia.
  - unfold handleNextLine.
    destruct (Z.of_nat (currentLineIndex l) <? Z.of_nat (List.length (lines l)) - 1)%Z
      eqn:E; [|now split].
    cbn [lines currentLineIndex]. split; [|exact Hb].
    apply Z.ltb_lt in E. lia.
Qed.

(** X27.  Whatever texts are entered and however the lines are stepped
    through, the current line is one of the lines of the text whenever the
    text has any: the index stays within the list, the current line is not
    blank, and no line kept is blank.  With no line at all the index is 0
    and the current line is the empty string. *)
Theorem lesson_current_line (inputText : string) (events : list LessonEvent) :
  let l := lesson inputText events in
  (forall x, In x (lines l) -> isBlank x = false) /\
  (lines l <> [] ->
   (currentLineIndex l < List.length (lines l))%nat /\
   In (currentLineText l) (lines l) /\
   isBlank (currentLineText l) = false) /\
  (lines l = [] -> currentLineIndex l = 0%nat /\ currentLineText l = EmptyString).
Proof.
  cbv zeta.
  assert (H : (currentLineIndex (lesson inputText events)
                 < List.length (lines (lesson inputText events)) \/
               currentLineIndex (lesson inputText events) = 0)%nat /\
              (forall x, In x (lines (lesson inputText events)) -> isBlank x = false)).
  { unfold lesson.
    assert (H0 : (currentLineIndex (setInputText inputText (mkLesson [] 0))
                    < List.length (lines (setInputText inputText (mkLesson [] 0))) \/
                  currentLineIndex (setInputText inputText (mkLesson [] 0)) = 0)%nat /\
                 (forall x, In x (lines (setInputText inputText (mkLesson [] 0))) ->
                            isBlank x = false)).
    { split; [right|].
      - unfold setInputText. cbn [currentLineIndex].
        now destruct (List.length (parseLines inputText) <=? 0)%nat.
      - intros x. apply parseLines_not_blank. }
    revert H0. generalize (setInputText inputText (mkLesson [] 0)).
    induction events as [|ev rest IH]; intros l Hl; cbn [fold_left]; trivial.
    apply IH. destruct Hl as [Hi Hb]. now apply lessonStep_index. }
  destruct H as [Hi Hb]. split; [exact Hb|]. split.
  - intros Hne.
    assert (Hlt : (currentLineIndex (lesson inputText events)
                     < List.length (lines (lesson inputText events)))%nat).
    { destruct Hi as [Hi | Hi]; trivial. rewrite Hi.
      destruct (lines (lesson inputText events)); [congruence|cbn; lia]. }
    assert (Hin : In (currentLineText (lesson inputText events))
                     (lines (lesson inputText events)))
      by (apply nth_In; exact Hlt).
    split; [exact Hlt|]. split; [exact Hin|now apply Hb].
  - intros E. unfold currentLineText. rewrite E in *. cbn [List.length] in Hi.
    destruct Hi as [Hi | Hi]; [lia|]. rewrite Hi. split; reflexivity.
Qed.

(** * Rounding: the code on doubles *)

(** ** Arrays of intervals of doubles *)

Lemma doubles_snoc_cases (l : list Doubles.SignalInterval) :
  l = [] \/ exists l' x, l = l' ++ [x].
Proof.
  destruct l as [|a l]; [now left|right].
  destruct (exists_last (l := a :: l)) as [l' [x E]]; [discriminate|].
  now exists l', x.
Qed.

Lemma doubles_lastOf_snoc (l : list Doubles.SignalInterval) (x : Doubles.SignalInterval) :
  Doubles.lastOf (l ++ [x]) = Some x.
Proof.
  induction l as [|a l IH]; [reflexivity|].
  cbn [app Doubles.lastOf]. destruct (l ++ [x]) eqn:E.
  - destruct l; discriminate.
  - exact IH.
Qed.

Lemma doubles_lastOf_inv (l : list Doubles.SignalInterval) (x : Doubles.SignalInterval) :
  Doubles.lastOf l = Some x -> exists l', l = l' ++ [x].
Proof.
  destruct (doubles_snoc_cases l) as [E | [l' [y E]]]; subst; [discriminate|].
  rewrite doubles_lastOf_snoc. intros [= ->]. now exists l'.
Qed.

Lemma doubles_pop_snoc (l : list Doubles.SignalInterval) (x : Doubles.SignalInterval) :
  Doubles.pop (l ++ [x]) = l.
Proof. apply removelast_last. Qed.


Section Chains.

Variable R : Doubles.SignalInterval -> Doubles.SignalInterval -> Prop.

Lemma chain_nil : Doubles.chain R [].
Proof. intros [|i] a b H; discriminate. Qed.

Lemma chain_snoc (l : list Doubles.SignalInterval) (x : Doubles.SignalInterval) :
  Doubles.chain R (l ++ [x]) <->
  Doubles.chain R l /\ (forall z, Doubles.lastOf l = Some z -> R z x).
Proof.
  split.
  - intro H. split.
    + intros i a b Ha Hb. apply (H i).
      * rewrite nth_error_app1; trivial. apply nth_error_Some. congruence.
      * rewrite nth_error_app1; trivial. apply nth_error_Some. congruence.
    + intros z Hz. destruct (doubles_lastOf_inv _ _ Hz) as [l' ->].
      apply (H (List.length l')).
      * rewrite <- app_assoc. rewrite nth_error_app2, Nat.sub_diag; [reflexivity|lia].
      * replace (S (List.length l')) with (List.length (l' ++ [z]))
          by (rewrite length_app; cbn; lia).
        rewrite nth_error_app2, Nat.sub_diag; [reflexivity|lia].
  - intros [H Hl] i a b Ha Hb.
    assert (Hi : (S i < List.length (l ++ [x]))%nat)
      by (apply nth_error_Some; congruence).
    rewrite length_app in Hi. cbn in Hi.
    destruct (Nat.eq_dec (S i) (List.length l)) as [E | N].
    + rewrite E in Hb. rewrite nth_error_app2, Nat.sub_diag in Hb by lia.
      injection Hb as <-.
      apply Hl. rewrite nth_error_app1 in Ha by lia.
      destruct (doubles_snoc_cases l) as [-> | [l' [y ->]]]; [discriminate|].
      rewrite length_app in E. cbn in E.
      replace i with (List.length l') in Ha by lia.
      rewrite nth_error_app2, Nat.sub_diag in Ha by lia. injection Ha as <-.
      apply doubles_lastOf_snoc.
    + rewrite nth_error_app1 in Ha by lia.
      rewrite nth_error_app1 in Hb by lia.
      exact (H i a b Ha Hb).
Qed.

End Chains.

(** ** The timing synthesizer on doubles *)

Section DoublesSynthesizer.

Variable dotMs : float.










End DoublesSynthesizer.




(** The same on the second line of the default text at 20 words per minute:
    the gap after "IS" starts at 2.22 and lasts 0.42, which add up to 2.64,
    and the mark after it starts at 2.6400000000000006. *)
Example textToIdealTiming_default_line_rounds :
  let l := Doubles.textToIdealTiming "ant is 3el yagi" 20 in
  exists gap mark,
    nth_error l 19 = Some gap /\ nth_error l 20 = Some mark /\
    Doubles.state gap = off /\ Doubles.state mark = on /\
    Doubles.startTime gap = 2.22%float /\ Doubles.duration gap = 0.42%float /\
    (2.22 + 0.42 = 2.64)%float /\
    Doubles.startTime mark = 2.6400000000000006%float.
Proof. do 2 eexists. vm_compute. repeat split. Qed.

(** C7 (amended).  At every speed, on the doubles the program computes, "E E"
    synthesizes to exactly four intervals: the mark of the first E, one gap,
    the mark of the second E and the trailing gap.  The gap between the two
    marks is one interval, the inter-character gap of [3 * dotMs] extended
    by [4 * dotMs]: it lasts the rounded sum [3 * dotMs + 4 * dotMs], with
    [dotMs = 1200 / w / 1000].  In exact rational arithmetic that is 7 units
    of [1.2 / w]. *)
Theorem textToIdealTiming_E_space_E_gap :
  (forall w : float,
     let u := Doubles.dotSeconds w in
     Doubles.textToIdealTiming "E E" w =
     [ Doubles.mkInterval 0 u on;
       Doubles.mkInterval (0 + u) (3 * u + 4 * u) off;
       Doubles.mkInterval (0 + u + 3 * u + 4 * u) u on;
       Doubles.mkInterval (0 + u + 3 * u + 4 * u + u) (3 * u) off ]%float) /\
  (forall w : Q,
     exists e1 gap e2 trailing,
       textToIdealTiming "E E" w = [e1; gap; e2; trailing] /\
       state e1 = on /\ state gap = off /\ state e2 = on /\ state trailing = off /\
       duration gap == 7 * unit w).
Proof.
  split.
  - intros w. reflexivity.
  - exact textToIdealTiming_E_space_E.
Qed.

(** C7 as stated fails on doubles.  At 15.7 words per minute, the default
    speed, the gap of "E E" lasts 0.5350318471337581, and 7 units of
    1.2 / 15.7 are 0.535031847133758, in whatever order the product and the
    quotient are taken.  At 8 words per minute the gap lasts
    1.0499999999999998, and 7 units of 0.15 are 1.05. *)
Lemma textToIdealTiming_E_space_E_not_7_units :
  (exists e1 gap e2 trailing,
     Doubles.textToIdealTiming "E E" 15.7 = [e1; gap; e2; trailing] /\
     Doubles.state gap = off /\
     Doubles.duration gap = 0.5350318471337581%float) /\
  (7 * (1.2 / 15.7) = 0.535031847133758 /\
   7 * 1.2 / 15.7 = 0.535031847133758 /\
   8.4 / 15.7 = 0.535031847133758)%float /\
  (0.535031847133758 <? 0.5350318471337581)%float = true /\
  (exists e1 gap e2 trailing,
     Doubles.textToIdealTiming "E E" 8 = [e1; gap; e2; trailing] /\
     Doubles.state gap = off /\
     Doubles.duration gap = 1.0499999999999998%float) /\
  (7 * (1.2 / 8) = 1.05 /\ 7 * 1.2 / 8 = 1.05 /\ 8.4 / 8 = 1.05)%float /\
  (1.0499999999999998 <? 1.05)%float = true.
Proof.
  split; [do 4 eexists; vm_compute; repeat split|].
  split; [vm_compute; repeat split|].
  split; [reflexivity|].
  split; [do 4 eexists; vm_compute; repeat split|].
  split; [vm_compute; repeat split|reflexivity].
Qed.

(** ** The audio keyer on doubles *)

Lemma doubles_state_not_off (z : Doubles.SignalInterval) :
  Doubles.state z <> off -> Doubles.isOn z = true.
Proof. unfold Doubles.isOn. destruct (Doubles.state z); congruence. Qed.

Lemma doubles_state_not_on (z : Doubles.SignalInterval) :
  Doubles.state z <> on -> Doubles.isOff z = true.
Proof. unfold Doubles.isOff. destruct (Doubles.state z); congruence. Qed.

Lemma doubles_accumulatorInvariant_nil (b : bool) (t : float) :
  Doubles.accumulatorInvariant (Doubles.mkAcc b [] t).
Proof. split; [apply chain_nil|discriminate]. Qed.

(** Removing the last committed interval reopens it. *)
Lemma doubles_accumulatorInvariant_pop (b : bool) (l : list Doubles.SignalInterval)
    (z : Doubles.SignalInterval) :
  Doubles.chain Doubles.spans (l ++ [z]) ->
  Doubles.state z = (if b then on else off) ->
  Doubles.accumulatorInvariant (Doubles.mkAcc b l (Doubles.startTime z)).
Proof.
  intros H Hz. apply chain_snoc in H. destruct H as [Hseq Hfol].
  split; [exact Hseq|]. cbn. intros y Hy. destruct (Hfol y Hy) as [Hs Ht].
  split; [congruence|exact Ht].
Qed.

(** Committing the open segment up to [t] and opening the opposite one. *)
Lemma doubles_accumulatorInvariant_push (b : bool) (l : list Doubles.SignalInterval)
    (c t : float) :
  Doubles.accumulatorInvariant (Doubles.mkAcc b l c) ->
  Doubles.accumulatorInvariant
    (Doubles.mkAcc (negb b)
       (Doubles.push l (Doubles.mkInterval c (t - c)%float (if b then on else off))) t).
Proof.
  intros [Hseq Hlast]. cbn in Hseq, Hlast. split; cbn; unfold Doubles.push.
  - apply chain_snoc. split; [exact Hseq|].
    intros z Hz. destruct (Hlast z Hz) as [Hs Ht]. split; [exact Hs|exact Ht].
  - rewrite doubles_lastOf_snoc. intros z [= <-]. cbn. split.
    + destruct b; discriminate.
    + reflexivity.
Qed.

Lemma doubles_transitionToOn_invariant (t : float) (a : Doubles.Accumulator) :
  Doubles.signalState a = false ->
  Doubles.accumulatorInvariant a ->
  Doubles.accumulatorInvariant (Doubles.transitionToOn t a).
Proof.
  destruct a as [b l c]. cbn [Doubles.signalState]. intros -> Ha.
  unfold Doubles.transitionToOn. cbn [Doubles.signals Doubles.lastChangeTime].
  destruct ((t - c <? 0.015)%float && (0 <? List.length l)%nat) eqn:E.
  - apply andb_true_iff in E. destruct E as [_ E].
    destruct (doubles_snoc_cases l) as [-> | [l' [z ->]]]; [discriminate|].
    rewrite doubles_lastOf_snoc, doubles_pop_snoc. destruct Ha as [Hseq Hlast].
    cbn [Doubles.signals Doubles.signalState Doubles.lastChangeTime] in Hseq, Hlast.
    destruct (Hlast z (doubles_lastOf_snoc l' z)) as [Hs _].
    rewrite (doubles_state_not_off z Hs).
    apply doubles_accumulatorInvariant_pop; trivial.
    destruct (Doubles.state z); congruence.
  - destruct ((0 <? List.length l)%nat || (0 <? c)%float) eqn:E2.
    + exact (doubles_accumulatorInvariant_push false l c t Ha).
    + apply orb_false_iff in E2. destruct E2 as [E2 _].
      destruct l; [|discriminate]. apply doubles_accumulatorInvariant_nil.
Qed.

Lemma doubles_transitionToOff_invariant (t : float) (a : Doubles.Accumulator) :
  Doubles.signalState a = true ->
  Doubles.accumulatorInvariant a ->
  Doubles.accumulatorInvariant (Doubles.transitionToOff t a).
Proof.
  destruct a as [b l c]. cbn [Doubles.signalState]. intros -> Ha.
  unfold Doubles.transitionToOff. cbn [Doubles.signals Doubles.lastChangeTime].
  destruct (t - c <? 0.015)%float eqn:E.
  - destruct (doubles_snoc_cases l) as [-> | [l' [z ->]]].
    + apply doubles_accumulatorInvariant_nil.
    + rewrite doubles_lastOf_snoc, doubles_pop_snoc. destruct Ha as [Hseq Hlast].
      cbn [Doubles.signals Doubles.signalState Doubles.lastChangeTime] in Hseq, Hlast.
      destruct (Hlast z (doubles_lastOf_snoc l' z)) as [Hs _].
      rewrite (doubles_state_not_on z Hs).
      apply doubles_accumulatorInvariant_pop; trivial.
      destruct (Doubles.state z); congruence.
  - exact (doubles_accumulatorInvariant_push true l c t Ha).
Qed.

Lemma doubles_detect_invariant (th lowerTh t e : float) (a : Doubles.Accumulator) :
  Doubles.accumulatorInvariant a ->
  Doubles.accumulatorInvariant (Doubles.detect th lowerTh t e a).
Proof.
  intros Ha. unfold Doubles.detect.
  destruct (Doubles.signalState a) eqn:Es; cbn [negb andb].
  - destruct (e <? lowerTh)%float; trivial. now apply doubles_transitionToOff_invariant.
  - destruct (th <? e)%float; trivial. now apply doubles_transitionToOn_invariant.
Qed.

Lemma doubles_sampleLoop_invariant (th lowerTh start rate origin : float)
    (data : list float) :
  forall (i : nat) (d : Doubles.Detector),
    Doubles.accumulatorInvariant (Doubles.acc d) ->
    Doubles.accumulatorInvariant
      (Doubles.acc (Doubles.sampleLoop th lowerTh start rate origin i data d)).
Proof.
  induction data as [|x rest IH]; intros i d Hd; cbn [Doubles.sampleLoop]; trivial.
  apply IH. unfold Doubles.processSample. cbn [Doubles.acc].
  now apply doubles_detect_invariant.
Qed.

Lemma doubles_sessionStep_invariant (k : Doubles.Keyer) (ev : Doubles.SessionEvent) :
  Doubles.accumulatorInvariant (Doubles.keyerAccumulator k) ->
  Doubles.accumulatorInvariant (Doubles.keyerAccumulator (Doubles.sessionStep k ev)).
Proof.
  intros Hk. destruct ev as [e | th | now]; cbn [Doubles.sessionStep].
  - unfold Doubles.onaudioprocess, Doubles.keyerAccumulator. cbn -[Doubles.sampleLoop].
    match goal with
    | |- Doubles.accumulatorInvariant
           {| Doubles.signalState := Doubles.signalState ?x;
              Doubles.signals := _; Doubles.lastChangeTime := _ |} =>
        assert (H : Doubles.accumulatorInvariant x)
          by (apply doubles_sampleLoop_invariant; exact Hk);
        destruct x; exact H
    end.
  - exact Hk.
  - unfold Doubles.resetSignals, Doubles.keyerAccumulator. cbn.
    apply doubles_accumulatorInvariant_nil.
Qed.

Lemma doubles_session_invariant (threshold now : float)
    (events : list Doubles.SessionEvent) :
  Doubles.accumulatorInvariant
    (Doubles.keyerAccumulator (Doubles.session threshold now events)).
Proof.
  unfold Doubles.session.
  assert (H0 : Doubles.accumulatorInvariant
                 (Doubles.keyerAccumulator
                    (Doubles.startListening now (Doubles.useAudioKeyer threshold))))
    by apply doubles_accumulatorInvariant_nil.
  revert H0. generalize (Doubles.startListening now (Doubles.useAudioKeyer threshold)).
  induction events as [|ev rest IH]; intros k Hk; cbn [fold_left]; trivial.
  apply IH. now apply doubles_sessionStep_invariant.
Qed.

Lemma doubles_stopListening_invariant (now : float) (k : Doubles.Keyer) :
  Doubles.accumulatorInvariant (Doubles.keyerAccumulator k) ->
  Doubles.chain Doubles.spans (Doubles.signalsRef (Doubles.stopListening now k)).
Proof.
  intros Hk. unfold Doubles.stopListening.
  destruct (Doubles.audioContextRef k); [|exact (proj1 Hk)].
  destruct (0.01 <? Doubles.max0 (now - Doubles.startTimeRef k) - Doubles.lastChangeTimeRef k)%float;
    [|exact (proj1 Hk)].
  cbn [Doubles.cleanup Doubles.signalsRef].
  exact (proj1 (doubles_accumulatorInvariant_push (Doubles.isSignalOnRef k)
                  (Doubles.signalsRef k) (Doubles.lastChangeTimeRef k) _ Hk)).
Qed.


(** C1 (amended).  Whatever blocks a capture session processes (and whatever
    threshold changes and resets come in between), on the doubles the
    program computes: neighbours in the committed list alternate between on
    and off, and the duration stored in each committed interval is the
    rounded difference between the start of the next one and its own start.
    The final flush of [stopListening] keeps this.  In exact rational
    arithmetic it says that each interval starts where the previous one
    ends. *)
Theorem session_alternates_and_spans :
  (forall (threshold now : float) (events : list Doubles.SessionEvent),
     let k := Doubles.session threshold now events in
     (forall i a b,
         nth_error (Doubles.signalsRef k) i = Some a ->
         nth_error (Doubles.signalsRef k) (S i) = Some b ->
         Doubles.state a <> Doubles.state b /\
         Doubles.duration a = (Doubles.startTime b - Doubles.startTime a)%float) /\
     (forall stopTime i a b,
         nth_error (Doubles.signalsRef (Doubles.stopListening stopTime k)) i = Some a ->
         nth_error (Doubles.signalsRef (Doubles.stopListening stopTime k)) (S i) = Some b ->
         Doubles.state a <> Doubles.state b /\
         Doubles.duration a = (Doubles.startTime b - Doubles.startTime a)%float)) /\
  (forall (threshold now : Q) (events : list SessionEvent),
     let k := session threshold now events in
     (forall i a b,
         nth_error (signalsRef k) i = Some a ->
         nth_error (signalsRef k) (S i) = Some b ->
         state a <> state b /\ startTime b == startTime a + duration a) /\
     (forall stopTime i a b,
         nth_error (signalsRef (stopListening stopTime k)) i = Some a ->
         nth_error (signalsRef (stopListening stopTime k)) (S i) = Some b ->
         state a <> state b /\ startTime b == startTime a + duration a)).
Proof.
  split.
  - intros threshold now events. cbv zeta. split.
    + exact (proj1 (doubles_session_invariant threshold now events)).
    + intros stopTime.
      exact (doubles_stopListening_invariant stopTime _
               (doubles_session_invariant threshold now events)).
  - intros threshold now events. cbv zeta.
    destruct (session_sequenceInvariant threshold now events) as [H1 H2].
    split; [exact H1|exact H2].
Qed.

(** C1 as stated fails on doubles.  A tone from sample 31 to sample 704 of a
    stream in blocks of 512 samples at 48 kHz, then a tone from sample 1514
    on.  The envelope falls under the lower threshold at sample 788, in the
    second block, and the second tone commits the gap.  The first tone is
    committed with start 31/48000 and, for duration, the rounded difference
    of the two times: the two add up to 0.016416666666666663, and the gap
    starts at 0.016416666666666666. *)
Lemma session_rounds_the_durations :
  let k := Doubles.session 0.31 0
             [ Doubles.AudioProcess
                 (Doubles.block 0 (repeat 0 31 ++ repeat 1 481));
               Doubles.AudioProcess
                 (Doubles.block 1 (repeat 1 193 ++ repeat 0 319));
               Doubles.AudioProcess
                 (Doubles.block 2 (repeat 0 490 ++ repeat 1 22)) ]%float in
  Doubles.signalsRef k =
  [ Doubles.mkInterval 0.0006458333333333333 0.01577083333333333 on;
    Doubles.mkInterval 0.016416666666666666 0.015124999999999996 off ]%float /\
  (0.0006458333333333333 + 0.01577083333333333 = 0.016416666666666663)%float /\
  (0.016416666666666663 <? 0.016416666666666666)%float = true.
Proof. vm_compute. repeat split. Qed.

(** C2.  The code at the start of a capture, on one block of 512 samples at
    48 kHz with the threshold at 0.31: silence, a click of one sample at
    sample 450 (9.4 ms), silence again, and a tone from sample 500 on.  The
    click is a pulse of 38 samples for the detector, far under 15 ms.  When
    it ends nothing is committed, so nothing is popped, and
    [lastChangeTimeRef] stays at the onset of the click, where the branch
    "Transition to ON" had moved it: the tone then commits an OFF interval
    that starts at the click and lasts 1 ms, and the silence before the
    click is in no interval.  Without the click the same block commits
    nothing. *)
Theorem click_at_start_of_capture :
  let click := Doubles.session 0.31 0
                 [ Doubles.AudioProcess
                     (Doubles.block 0
                        (repeat 0 450 ++ [1] ++ repeat 0 49 ++ repeat 1 12)) ]%float in
  let afterClick := Doubles.session 0.31 0
                 [ Doubles.AudioProcess
                     (Doubles.block 0 (repeat 0 450 ++ [1] ++ repeat 0 49)) ]%float in
  let plain := Doubles.session 0.31 0
                 [ Doubles.AudioProcess
                     (Doubles.block 0 (repeat 0 500 ++ repeat 1 12)) ]%float in
  (Doubles.signalsRef afterClick = [] /\
   Doubles.isSignalOnRef afterClick = false /\
   Doubles.lastChangeTimeRef afterClick = 0.009375%float) /\
  (Doubles.signalsRef click =
     [Doubles.mkInterval 0.009375 0.0010416666666666664 off]%float /\
   Doubles.isSignalOnRef click = true /\
   Doubles.lastChangeTimeRef click = 0.010416666666666666%float) /\
  (Doubles.signalsRef plain = [] /\
   Doubles.isSignalOnRef plain = true /\
   Doubles.lastChangeTimeRef plain = 0.010416666666666666%float).
Proof. vm_compute. repeat split. Qed.
